(** * ayejay::odds -- "1 in N" odds utilities (odds.hpp)

  A shallow embedding of the header-only core of the library:
  the [splitmix64] seeding generator, the [xoshiro256ss] stream
  generator, the unbiased bounded sampler [uniform_bounded] and the
  probability checks [one_in] / [one_in_t].

  Unsigned machine integers are modelled as [Z] with the wrap-around of
  every operation written out.  The sampler is a template over the
  unsigned type [UInt] and over the generator type [Rng]; the former
  is represented by its width in bits, the latter by a type class. *)

From Stdlib Require Import ZArith Lia Bool List Znumtheory.

Local Open Scope Z_scope.

(* ------------------------------------------------------------------ *)
(** ** Machine words *)

(** Reduction to a [std::uint64_t]. *)
Definition wrap64 (z : Z) : Z := z mod 2 ^ 64.

(** Reduction to a 128-bit unsigned ([__uint128_t]). *)
Definition wrap128 (z : Z) : Z := z mod 2 ^ 128.

(** Reduction to an unsigned integer type of [bits] bits
  ([static_cast<UInt>]). *)
Definition wrap (bits z : Z) : Z := z mod 2 ^ bits.

(** [std::numeric_limits<std::uint64_t>::max()] *)
Definition UINT64_MAX : Z := 2 ^ 64 - 1.

(** [rotl64(x, k) = (x << k) | (x >> (64 - k))] on [std::uint64_t]. *)
Definition rotl64 (x k : Z) : Z :=
  Z.lor (wrap64 (Z.shiftl x k)) (Z.shiftr x (64 - k)).

(* ------------------------------------------------------------------ *)
(** ** splitmix64 - seeding generator *)

Module splitmix64.

Record t : Type := mk { state : Z }.

(** [explicit splitmix64(std::uint64_t seed) : state(seed)] *)
Definition make (seed : Z) : t := mk seed.

Definition GAMMA : Z := 0x9E3779B97F4A7C15.
Definition MUL1 : Z := 0xBF58476D1CE4E5B9.
Definition MUL2 : Z := 0x94D049BB133111EB.

(** The three rounds applied to the incremented state. *)
Definition round1 (z : Z) : Z := wrap64 (Z.lxor z (Z.shiftr z 30) * MUL1).
Definition round2 (z : Z) : Z := wrap64 (Z.lxor z (Z.shiftr z 27) * MUL2).
Definition round3 (z : Z) : Z := Z.lxor z (Z.shiftr z 31).

(** The rounds in sequence: the output word for an incremented state. *)
Definition mix (z : Z) : Z := round3 (round2 (round1 z)).

(** [next_u64]: returns the output word and the updated generator. *)
Definition next_u64 (sm : t) : Z * t :=
  let st := wrap64 (state sm + GAMMA) in
  let z := st in
  let z := round1 z in
  let z := round2 z in
  (round3 z, mk st).

End splitmix64.

(* ------------------------------------------------------------------ *)
(** ** xoshiro256** - fast PRNG *)

Module xoshiro256ss.

(** [std::array<std::uint64_t, 4> s], one field per cell. *)
Record t : Type := mk { s0 : Z; s1 : Z; s2 : Z; s3 : Z }.

(** The default member initialiser. *)
Definition default : t :=
  mk 0x123456789ABCDEF0 0xCAFEBABEDEADC0DE 0x0F1E2D3C4B5A6978 0x1122334455667788.

(** The state substituted when the mixer gives the all-zero state. *)
Definition fallback : t :=
  mk 0x9E3779B97F4A7C15 0xBF58476D1CE4E5B9 0x94D049BB133111EB 0xD1B54A32D192ED03.

(** The test [(s[0] | s[1] | s[2] | s[3]) == 0ULL]. *)
Definition all_zero (g : t) : bool :=
  Z.lor (Z.lor (Z.lor (s0 g) (s1 g)) (s2 g)) (s3 g) =? 0.

(** The four words drawn from the mixer, before the all-zero check. *)
Definition mixed (seed : Z) : t :=
  let sm := splitmix64.make seed in
  let '(w0, sm) := splitmix64.next_u64 sm in
  let '(w1, sm) := splitmix64.next_u64 sm in
  let '(w2, sm) := splitmix64.next_u64 sm in
  let '(w3, _) := splitmix64.next_u64 sm in
  mk w0 w1 w2 w3.

(** [seed_with]: a member function; [g] is the generator it is called
    on, every cell of which is overwritten. *)
Definition seed_with (g : t) (seed : Z) : t :=
  let sm := splitmix64.make seed in
  let '(w0, sm) := splitmix64.next_u64 sm in
  let g := mk w0 (s1 g) (s2 g) (s3 g) in
  let '(w1, sm) := splitmix64.next_u64 sm in
  let g := mk (s0 g) w1 (s2 g) (s3 g) in
  let '(w2, sm) := splitmix64.next_u64 sm in
  let g := mk (s0 g) (s1 g) w2 (s3 g) in
  let '(w3, _) := splitmix64.next_u64 sm in
  let g := mk (s0 g) (s1 g) (s2 g) w3 in
  if all_zero g then fallback else g.

(** [explicit xoshiro256ss(std::uint64_t seed)] *)
Definition make (seed : Z) : t := seed_with default seed.

(** [next_u64]: returns the output word and the advanced state. *)
Definition next_u64 (g : t) : Z * t :=
  let result := wrap64 (rotl64 (wrap64 (s1 g * 5)) 7 * 9) in
  let t := wrap64 (Z.shiftl (s1 g) 17) in
  let x2 := Z.lxor (s2 g) (s0 g) in
  let x3 := Z.lxor (s3 g) (s1 g) in
  let x1 := Z.lxor (s1 g) x2 in
  let x0 := Z.lxor (s0 g) x3 in
  let x2 := Z.lxor x2 t in
  let x3 := rotl64 x3 45 in
  (result, mk x0 x1 x2 x3).

(** [next_u32]: the upper half of one [next_u64] draw. *)
Definition next_u32 (g : t) : Z * t :=
  let '(x, g') := next_u64 g in (wrap 32 (Z.shiftr x 32), g').

(** Every cell holds a [std::uint64_t]. *)
Definition wf (g : t) : Prop :=
  0 <= s0 g < 2 ^ 64 /\ 0 <= s1 g < 2 ^ 64 /\
  0 <= s2 g < 2 ^ 64 /\ 0 <= s3 g < 2 ^ 64.

(** The state after [n] draws. *)
Fixpoint advance (n : nat) (g : t) : t :=
  match n with
  | O => g
  | S k => advance k (snd (next_u64 g))
  end.

End xoshiro256ss.

(* ------------------------------------------------------------------ *)
(** ** Generators usable by the sampler

  [uniform_bounded] and [one_in] are templates over [class Rng]; all
  they use of it is [rng.next_u64()]. *)

Class Rng (R : Type) : Type := { rng_next_u64 : R -> Z * R }.

#[export] Instance xoshiro256ss_Rng : Rng xoshiro256ss.t :=
  {| rng_next_u64 := xoshiro256ss.next_u64 |}.

(** A generator whose every draw is the same word; it isolates what the
  sampler does with one given draw. *)
Record fixed_draw : Type := Fixed { the_draw : Z }.

#[export] Instance fixed_draw_Rng : Rng fixed_draw :=
  {| rng_next_u64 := fun g => (the_draw g, g) |}.

(* ------------------------------------------------------------------ *)
(** ** Unbiased bounded uniform: [0, bound-1] *)

(** The three conditionally compiled bodies of the rejection loop. *)
Inductive platform : Type :=
| Int128        (* defined(__SIZEOF_INT128__) *)
| MsvcX64       (* defined(_MSC_VER) && defined(_M_X64) *)
| Portable.     (* otherwise *)

(** [_umul128(x, b, &hi)]: low and high words of the 128-bit product. *)
Definition umul128 (x b : Z) : Z * Z :=
  (wrap64 (x * b), wrap64 (Z.shiftr (wrap128 (x * b)) 64)).

(** One iteration of the body of [for (;;)] on the draw [x]:
  [Some v] when the iteration returns [v], [None] when it loops. *)
Definition loop_body (p : platform) (bits b threshold x : Z) : option Z :=
  match p with
  | Int128 =>
      let m := wrap128 (x * b) in
      let l := wrap64 m in
      if threshold <=? l then Some (wrap bits (Z.shiftr m 64)) else None
  | MsvcX64 =>
      let '(lo, hi) := umul128 x b in
      if threshold <=? lo then Some (wrap bits hi) else None
  | Portable =>
      let limit := wrap64 ((UINT64_MAX / b) * b) in
      if x <? limit then Some (wrap bits (x mod b)) else None
  end.

Section Sampler.

Context {R : Type} `{Rng R}.

(** The loop [for (;;)], run for at most [fuel] iterations; [None]
    stands for a loop that is still running when the fuel is spent. *)
Fixpoint rejection_loop (fuel : nat) (p : platform) (bits b threshold : Z)
         (rng : R) : option (Z * R) :=
  match fuel with
  | O => None
  | S n =>
      let '(x, rng') := rng_next_u64 rng in
      match loop_body p bits b threshold x with
      | Some v => Some (v, rng')
      | None => rejection_loop n p bits b threshold rng'
      end
  end.

(** [uniform_bounded<UInt>(rng, bound)], [UInt] having [bits] bits.
    The test [bound & (bound - 1)] is on [UInt] operands (promoted to
    [int] when narrower, where [bound - 1] cannot wrap as [bound] is
    not 0 there); the mask is computed on [std::uint64_t]. *)
Definition uniform_bounded (fuel : nat) (p : platform) (bits : Z)
           (rng : R) (bound : Z) : option (Z * R) :=
  if bound =? 0 then Some (0, rng)
  else if Z.land bound (wrap bits (bound - 1)) =? 0 then
    let '(x, rng') := rng_next_u64 rng in
    Some (wrap bits (Z.land x (wrap64 (wrap64 bound - 1))), rng')
  else
    let b := wrap64 bound in
    let threshold := wrap64 (0 - b) mod b in
    rejection_loop fuel p bits b threshold rng.

(** [one_in<UInt>(rng, bound)] *)
Definition one_in (fuel : nat) (p : platform) (bits : Z)
           (rng : R) (bound : Z) : option (bool * R) :=
  if bound <=? 1 then Some (true, rng)
  else
    match uniform_bounded fuel p bits rng bound with
    | Some (v, rng') => Some (v =? 0, rng')
    | None => None
    end.

End Sampler.

(** [one_in_t<N>::operator()(xoshiro256ss& rng)]; [N] is a
  [std::uint32_t] with [static_assert(N >= 1)]. *)
Definition one_in_t (N : Z) (fuel : nat) (p : platform)
           (rng : xoshiro256ss.t) : option (bool * xoshiro256ss.t) :=
  if N =? 1 then Some (true, rng)
  else
    match uniform_bounded fuel p 32 rng (wrap 32 N) with
    | Some (v, rng') => Some (v =? 0, rng')
    | None => None
    end.

(* ------------------------------------------------------------------ *)
(** ** Counting draws *)

(** What [uniform_bounded] makes of the single draw [x]: [Some v] when
    it returns [v] on that draw, [None] when the draw is rejected. *)
Definition outcome (p : platform) (bits bound x : Z) : option Z :=
  option_map fst (uniform_bounded 1 p bits (Fixed x) bound).

(** [bound] is a power of two. *)
Definition pow2 (bound : Z) : Prop := exists k, 0 <= k /\ bound = 2 ^ k.

(** The number of [x] in [0, n) on which [P] holds. *)
Fixpoint count_below (P : Z -> bool) (n : nat) : Z :=
  match n with
  | O => 0
  | S k => count_below P k + (if P (Z.of_nat k) then 1 else 0)
  end.

(** The number of 64-bit words on which [P] holds. *)
Definition count_u64 (P : Z -> bool) : Z := count_below P (Z.to_nat (2 ^ 64)).

(** [yields o v]: the outcome [o] is the value [v]. *)
Definition yields (o : option Z) (v : Z) : bool :=
  match o with
  | Some r => r =? v
  | None => false
  end.

(** The number of 64-bit draws that [uniform_bounded] accepts and maps
    to [v]. *)
Definition draws_mapped_to (p : platform) (bits bound v : Z) : Z :=
  count_u64 (fun x => yields (outcome p bits bound x) v).

(** The fallback of the bounded sampler as the specification words it:
    accept [x] only if [x < floor(2^64/bound) * bound], then return
    [x mod bound]. *)
Definition spec_fallback (bound x : Z) : option Z :=
  if x <? (2 ^ 64 / bound) * bound then Some (x mod bound) else None.

(** The rejection threshold as the specification words it. *)
Definition spec_threshold (bound : Z) : Z := 2 ^ 64 mod bound.

(** The threshold the code computes, [(std::uint64_t{0} - b) % b]. *)
Definition threshold_of (bound : Z) : Z :=
  wrap64 (0 - wrap64 bound) mod wrap64 bound.

(* ------------------------------------------------------------------ *)
(** ** Further notions used to state properties of the code *)

(** The mixer after [n] calls of [next_u64]. *)
Fixpoint splitmix64_advance (n : nat) (sm : splitmix64.t) : splitmix64.t :=
  match n with
  | O => sm
  | S k => splitmix64_advance k (snd (splitmix64.next_u64 sm))
  end.

(** [accepted o]: the draw was not rejected. *)
Definition accepted (o : option Z) : bool :=
  match o with
  | Some _ => true
  | None => false
  end.

(** The number of 64-bit draws that [uniform_bounded] accepts. *)
Definition draws_accepted (p : platform) (bits bound : Z) : Z :=
  count_u64 (fun x => accepted (outcome p bits bound x)).

(** What [one_in] answers on the single draw [x]. *)
Definition one_in_outcome (p : platform) (bits bound x : Z) : option bool :=
  option_map fst (one_in 1 p bits (Fixed x) bound).

(** The number of 64-bit draws on which [one_in] answers [a]. *)
Definition draws_answering (p : platform) (bits bound : Z) (a : bool) : Z :=
  count_u64 (fun x => match one_in_outcome p bits bound x with
                      | Some r => Bool.eqb r a
                      | None => false
                      end).

(** *** The thread-local default generator

    [detail::tl_rng] is one generator per thread; the functions that use
    it take the thread's generator and return it updated.  Its initial
    value comes from [std::random_device] and is left arbitrary. *)

(** [seed_thread(seed)] *)
Definition seed_thread (tl : xoshiro256ss.t) (seed : Z) : xoshiro256ss.t :=
  xoshiro256ss.seed_with tl seed.

(** [one_in(bound)], on [thread_rng()]. *)
Definition one_in_thread (fuel : nat) (p : platform) (bits : Z)
           (tl : xoshiro256ss.t) (bound : Z)
  : option (bool * xoshiro256ss.t) :=
  one_in fuel p bits tl bound.

(** [one_in_t<N>::operator()()], on [thread_rng()]. *)
Definition one_in_t_thread (N : Z) (fuel : nat) (p : platform)
           (tl : xoshiro256ss.t) : option (bool * xoshiro256ss.t) :=
  one_in_t N fuel p tl.

(** The preset [p100]. *)
Definition p100 : nat -> platform -> xoshiro256ss.t
                  -> option (bool * xoshiro256ss.t) :=
  one_in_t_thread 100.

(** The loop of the example program: [trials] calls of [p100()],
    counting the hits in a [std::size_t]. *)
Fixpoint main_loop (trials : nat) (fuel : nat) (p : platform)
         (tl : xoshiro256ss.t) (hits : Z) : option (Z * xoshiro256ss.t) :=
  match trials with
  | O => Some (hits, tl)
  | S n =>
      match p100 fuel p tl with
      | Some (hit, tl') =>
          main_loop n fuel p tl' (if hit then wrap64 (hits + 1) else hits)
      | None => None
      end
  end.

(** The body of the example program for a given number of trials: what
    it prints (the number of hits and whether "Lucky 37" triggered) and
    the thread's generator at exit. *)
Definition main_with (trials : nat) (fuel : nat) (p : platform)
           (tl : xoshiro256ss.t) : option (Z * bool * xoshiro256ss.t) :=
  let tl := seed_thread tl 1337 in
  match main_loop trials fuel p tl 0 with
  | Some (hits, tl) =>
      match one_in_thread fuel p 32 tl 37 with
      | Some (lucky, tl) => Some (hits, lucky, tl)
      | None => None
      end
  | None => None
  end.

(** [main], with [constexpr std::size_t trials = 1'000'000]. *)
Definition main : nat -> platform -> xoshiro256ss.t
                  -> option (Z * bool * xoshiro256ss.t) :=
  main_with (Z.to_nat 1000000).

(** The sum of [g 0], ..., [g (m - 1)]. *)
Fixpoint sum_below (g : Z -> Z) (m : nat) : Z :=
  match m with
  | O => 0
  | S k => sum_below g k + g (Z.of_nat k)
  end.

(* ------------------------------------------------------------------ *)
(** ** Arithmetic of machine words *)

Lemma wrap64_range (z : Z) : 0 <= wrap64 z < 2 ^ 64.
Proof. unfold wrap64. apply Z.mod_pos_bound. lia. Qed.

Lemma wrap64_small (z : Z) : 0 <= z < 2 ^ 64 -> wrap64 z = z.
Proof. intros Hz. unfold wrap64. apply Z.mod_small. exact Hz. Qed.

Lemma wrap_small (bits z : Z) : 0 <= z < 2 ^ bits -> wrap bits z = z.
Proof. intros Hz. unfold wrap. apply Z.mod_small. exact Hz. Qed.

Lemma pow2_le_64 (bits : Z) : 0 < bits <= 64 -> 0 < 2 ^ bits <= 2 ^ 64.
Proof.
  intros Hb. split.
  - apply Z.pow_pos_nonneg; lia.
  - apply Z.pow_le_mono_r; lia.
Qed.

Lemma lxor_range (n a b : Z) :
  0 < n -> 0 <= a < 2 ^ n -> 0 <= b < 2 ^ n -> 0 <= Z.lxor a b < 2 ^ n.
Proof.
  intros Hn Ha Hb.
  assert (Hnn : 0 <= Z.lxor a b) by (apply Z.lxor_nonneg; lia).
  split; [exact Hnn|].
  destruct (Z.eq_dec (Z.lxor a b) 0) as [E|E].
  - rewrite E. apply Z.pow_pos_nonneg; lia.
  - apply Z.log2_lt_pow2; [lia|].
    pose proof (Z.log2_lxor a b (proj1 Ha) (proj1 Hb)) as Hl.
    assert (Z.log2 a < n).
    { destruct (Z.eq_dec a 0) as [->|]; [simpl; lia|].
      apply Z.log2_lt_pow2; lia. }
    assert (Z.log2 b < n).
    { destruct (Z.eq_dec b 0) as [->|]; [simpl; lia|].
      apply Z.log2_lt_pow2; lia. }
    lia.
Qed.

Lemma lor_range (n a b : Z) :
  0 < n -> 0 <= a < 2 ^ n -> 0 <= b < 2 ^ n -> 0 <= Z.lor a b < 2 ^ n.
Proof.
  intros Hn Ha Hb.
  assert (Hnn : 0 <= Z.lor a b) by (apply Z.lor_nonneg; lia).
  split; [exact Hnn|].
  destruct (Z.eq_dec (Z.lor a b) 0) as [E|E].
  - rewrite E. apply Z.pow_pos_nonneg; lia.
  - apply Z.log2_lt_pow2; [lia|].
    rewrite (Z.log2_lor a b (proj1 Ha) (proj1 Hb)).
    assert (Z.log2 a < n).
    { destruct (Z.eq_dec a 0) as [->|]; [simpl; lia|].
      apply Z.log2_lt_pow2; lia. }
    assert (Z.log2 b < n).
    { destruct (Z.eq_dec b 0) as [->|]; [simpl; lia|].
      apply Z.log2_lt_pow2; lia. }
    lia.
Qed.

Lemma shiftr_range (x k : Z) :
  0 <= k -> 0 <= x < 2 ^ 64 -> 0 <= Z.shiftr x k < 2 ^ 64.
Proof.
  intros Hk Hx. rewrite Z.shiftr_div_pow2 by lia.
  assert (Hp : 0 < 2 ^ k) by (apply Z.pow_pos_nonneg; lia).
  split.
  - apply Z.div_pos; lia.
  - apply Z.le_lt_trans with x; [|lia].
    apply Z.div_le_upper_bound; [exact Hp|].
    nia.
Qed.

Lemma rotl64_range (x k : Z) :
  0 <= k <= 64 -> 0 <= x < 2 ^ 64 -> 0 <= rotl64 x k < 2 ^ 64.
Proof.
  intros Hk Hx. unfold rotl64.
  apply lor_range; [lia|apply wrap64_range|apply shiftr_range; lia].
Qed.

(** A rotation by 45 sends only the zero word to zero. *)
Lemma rotl64_45_zero (x : Z) : 0 <= x < 2 ^ 64 -> rotl64 x 45 = 0 -> x = 0.
Proof.
  intros Hx E. unfold rotl64 in E.
  apply Z.lor_eq_0_iff in E. destruct E as [Ehi Elo].
  replace (64 - 45) with 19 in Elo by lia.
  rewrite Z.shiftr_div_pow2 in Elo by lia.
  assert (Hs : x < 2 ^ 19).
  { apply Z.div_small_iff in Elo; lia. }
  rewrite Z.shiftl_mul_pow2 in Ehi by lia.
  rewrite wrap64_small in Ehi; [lia|].
  change (2 ^ 64) with (2 ^ 19 * 2 ^ 45). nia.
Qed.

(** A word fixed by the shift [<< 17] is zero. *)
Lemma shl17_fixed (x : Z) :
  0 <= x < 2 ^ 64 -> x = wrap64 (Z.shiftl x 17) -> x = 0.
Proof.
  intros Hx E. rewrite Z.shiftl_mul_pow2 in E by lia. unfold wrap64 in E.
  assert (D : (2 ^ 64 | (2 ^ 17 - 1) * x)).
  { exists ((x * 2 ^ 17) / 2 ^ 64).
    pose proof (Z.div_mod (x * 2 ^ 17) (2 ^ 64)) as Hdm. lia. }
  apply Z.gauss in D; [|reflexivity].
  destruct D as [q Hq].
  assert (q = 0) by nia. subst q. lia.
Qed.

(* ------------------------------------------------------------------ *)
(** ** The generator state *)

Lemma round3_range (z : Z) : 0 <= z < 2 ^ 64 -> 0 <= splitmix64.round3 z < 2 ^ 64.
Proof.
  intros Hz. unfold splitmix64.round3.
  apply lxor_range; [lia|exact Hz|apply shiftr_range; lia].
Qed.

Lemma splitmix64_next_range (sm : splitmix64.t) :
  0 <= fst (splitmix64.next_u64 sm) < 2 ^ 64.
Proof.
  unfold splitmix64.next_u64. cbn [fst].
  apply round3_range. unfold splitmix64.round2. apply wrap64_range.
Qed.

Lemma all_zero_true (g : xoshiro256ss.t) :
  xoshiro256ss.all_zero g = true <->
  xoshiro256ss.s0 g = 0 /\ xoshiro256ss.s1 g = 0 /\
  xoshiro256ss.s2 g = 0 /\ xoshiro256ss.s3 g = 0.
Proof.
  unfold xoshiro256ss.all_zero. rewrite Z.eqb_eq.
  rewrite !Z.lor_eq_0_iff. tauto.
Qed.

Lemma mixed_wf (seed : Z) : xoshiro256ss.wf (xoshiro256ss.mixed seed).
Proof.
  unfold xoshiro256ss.mixed, xoshiro256ss.wf.
  repeat match goal with
         | |- context [splitmix64.next_u64 ?s] =>
             let w := fresh "w" in
             let H := fresh "H" in
             pose proof (splitmix64_next_range s) as H;
             destruct (splitmix64.next_u64 s) as [w ?]; cbn [fst] in H
         end.
  cbn. auto.
Qed.

(** The four words are the mixer's outputs for [seed + k * GAMMA]. *)
Lemma mixed_words (seed : Z) :
  xoshiro256ss.mixed seed =
  xoshiro256ss.mk
    (splitmix64.mix (wrap64 (seed + 1 * splitmix64.GAMMA)))
    (splitmix64.mix (wrap64 (seed + 2 * splitmix64.GAMMA)))
    (splitmix64.mix (wrap64 (seed + 3 * splitmix64.GAMMA)))
    (splitmix64.mix (wrap64 (seed + 4 * splitmix64.GAMMA))).
Proof.
  unfold xoshiro256ss.mixed, splitmix64.next_u64, splitmix64.make,
    splitmix64.mix.
  cbn [splitmix64.state].
  assert (Hs : forall k,
             wrap64 (wrap64 (seed + k * splitmix64.GAMMA) + splitmix64.GAMMA)
             = wrap64 (seed + (k + 1) * splitmix64.GAMMA)).
  { intros k. unfold wrap64. rewrite Z.add_mod_idemp_l by lia.
    f_equal. lia. }
  replace (seed + splitmix64.GAMMA) with (seed + 1 * splitmix64.GAMMA)
    by lia.
  rewrite !Hs. reflexivity.
Qed.

(** An XOR-shift round sends only zero to zero. *)
Lemma xorshift_zero (z k : Z) :
  0 < k -> 0 <= z -> Z.lxor z (Z.shiftr z k) = 0 -> z = 0.
Proof.
  intros Hk Hz E. apply Z.lxor_eq in E.
  rewrite Z.shiftr_div_pow2 in E by lia.
  assert (Hp : 2 <= 2 ^ k).
  { change 2 with (2 ^ 1) at 1. apply Z.pow_le_mono_r; lia. }
  pose proof (Z.mul_div_le z (2 ^ k) ltac:(lia)) as Hle.
  rewrite <- E in Hle. nia.
Qed.

(** A multiplication by an odd constant sends only zero to zero. *)
Lemma odd_mul_zero (y m : Z) :
  Z.gcd (2 ^ 64) m = 1 -> 0 <= y < 2 ^ 64 -> wrap64 (y * m) = 0 -> y = 0.
Proof.
  intros Hg Hy E. unfold wrap64 in E.
  apply Z.mod_divide in E; [|lia].
  rewrite Z.mul_comm in E. apply Z.gauss in E; [|exact Hg].
  destruct E as [q Hq]. assert (q = 0) by nia. subst q. lia.
Qed.

(** The mixer's rounds send only zero to zero. *)
Lemma mix_zero (z : Z) : 0 <= z < 2 ^ 64 -> splitmix64.mix z = 0 -> z = 0.
Proof.
  intros Hz E. unfold splitmix64.mix in E.
  apply xorshift_zero in E;
    [|lia|unfold splitmix64.round2; apply wrap64_range].
  unfold splitmix64.round2 in E. apply odd_mul_zero in E;
    [|reflexivity
     |apply lxor_range;
      [lia|apply wrap64_range|apply shiftr_range; [lia|apply wrap64_range]]].
  apply xorshift_zero in E;
    [|lia|unfold splitmix64.round1; apply wrap64_range].
  unfold splitmix64.round1 in E. apply odd_mul_zero in E;
    [|reflexivity|apply lxor_range; [lia|exact Hz|apply shiftr_range; lia]].
  apply xorshift_zero in E; lia.
Qed.

(** An XOR-shift round is one-to-one. *)
Lemma xorshift_inj (a b k : Z) :
  0 < k -> 0 <= a -> 0 <= b ->
  Z.lxor a (Z.shiftr a k) = Z.lxor b (Z.shiftr b k) -> a = b.
Proof.
  intros Hk Ha Hb E.
  apply Z.lxor_eq. apply (xorshift_zero _ k Hk).
  - apply Z.lxor_nonneg. lia.
  - rewrite Z.shiftr_lxor. apply Z.bits_inj'. intros n Hn.
    apply (f_equal (fun z => Z.testbit z n)) in E.
    rewrite !Z.lxor_spec in E. rewrite !Z.lxor_spec, Z.bits_0.
    destruct (Z.testbit a n), (Z.testbit b n),
      (Z.testbit (Z.shiftr a k) n), (Z.testbit (Z.shiftr b k) n);
      cbn in *; congruence.
Qed.

(** A multiplication by an odd constant is one-to-one on 64-bit words. *)
Lemma odd_mul_inj (a b m : Z) :
  Z.gcd (2 ^ 64) m = 1 -> 0 <= a < 2 ^ 64 -> 0 <= b < 2 ^ 64 ->
  wrap64 (a * m) = wrap64 (b * m) -> a = b.
Proof.
  intros Hg Ha Hb E. unfold wrap64 in E.
  assert (D : (2 ^ 64 | m * (a - b))).
  { exists ((a * m) / 2 ^ 64 - (b * m) / 2 ^ 64).
    pose proof (Z.div_mod (a * m) (2 ^ 64) ltac:(lia)).
    pose proof (Z.div_mod (b * m) (2 ^ 64) ltac:(lia)). lia. }
  apply Z.gauss in D; [|exact Hg].
  destruct D as [q Hq]. assert (q = 0) by nia. lia.
Qed.

(** The mixer's rounds are one-to-one on 64-bit words. *)
Lemma mix_inj (a b : Z) :
  0 <= a < 2 ^ 64 -> 0 <= b < 2 ^ 64 ->
  splitmix64.mix a = splitmix64.mix b -> a = b.
Proof.
  intros Ha Hb E. unfold splitmix64.mix, splitmix64.round3 in E.
  apply xorshift_inj in E;
    [|lia|unfold splitmix64.round2; apply wrap64_range
     |unfold splitmix64.round2; apply wrap64_range].
  unfold splitmix64.round2 in E. apply odd_mul_inj in E;
    [|reflexivity
     |apply lxor_range;
      [lia|apply wrap64_range|apply shiftr_range; [lia|apply wrap64_range]]
     |apply lxor_range;
      [lia|apply wrap64_range|apply shiftr_range; [lia|apply wrap64_range]]].
  apply xorshift_inj in E;
    [|lia|unfold splitmix64.round1; apply wrap64_range
     |unfold splitmix64.round1; apply wrap64_range].
  unfold splitmix64.round1 in E. apply odd_mul_inj in E;
    [|reflexivity
     |apply lxor_range; [lia|exact Ha|apply shiftr_range; lia]
     |apply lxor_range; [lia|exact Hb|apply shiftr_range; lia]].
  apply xorshift_inj in E; lia.
Qed.

(** The mixer never gives four zero words: two successive mixer states
    differ by [GAMMA], so they are not both zero. *)
Lemma mixed_nonzero (seed : Z) :
  xoshiro256ss.all_zero (xoshiro256ss.mixed seed) = false.
Proof.
  destruct (xoshiro256ss.all_zero (xoshiro256ss.mixed seed)) eqn:E;
    [exfalso|reflexivity].
  apply all_zero_true in E. rewrite mixed_words in E.
  cbn [xoshiro256ss.s0 xoshiro256ss.s1 xoshiro256ss.s2 xoshiro256ss.s3] in E.
  destruct E as (E1 & E2 & _).
  apply mix_zero in E1; [|apply wrap64_range].
  apply mix_zero in E2; [|apply wrap64_range].
  unfold wrap64 in E1, E2.
  replace (seed + 2 * splitmix64.GAMMA)
    with (seed + 1 * splitmix64.GAMMA + splitmix64.GAMMA) in E2 by lia.
  rewrite <- Z.add_mod_idemp_l, E1 in E2 by lia.
  vm_compute in E2. discriminate.
Qed.

Lemma fallback_wf : xoshiro256ss.wf xoshiro256ss.fallback.
Proof. unfold xoshiro256ss.wf. cbn. lia. Qed.

(** [seed_with] overwrites every cell: it is the mixer's four words,
    or the fallback state when those are all zero. *)
Lemma seed_with_mixed (g : xoshiro256ss.t) (seed : Z) :
  xoshiro256ss.seed_with g seed =
  if xoshiro256ss.all_zero (xoshiro256ss.mixed seed)
  then xoshiro256ss.fallback else xoshiro256ss.mixed seed.
Proof.
  unfold xoshiro256ss.seed_with, xoshiro256ss.mixed.
  repeat match goal with
         | |- context [splitmix64.next_u64 ?s] =>
             destruct (splitmix64.next_u64 s) as [? ?]
         end.
  reflexivity.
Qed.

Lemma seed_with_wf (g : xoshiro256ss.t) (seed : Z) :
  xoshiro256ss.wf (xoshiro256ss.seed_with g seed).
Proof.
  rewrite seed_with_mixed.
  destruct (xoshiro256ss.all_zero _); [apply fallback_wf|apply mixed_wf].
Qed.

Lemma seed_with_nonzero (g : xoshiro256ss.t) (seed : Z) :
  xoshiro256ss.all_zero (xoshiro256ss.seed_with g seed) = false.
Proof.
  rewrite seed_with_mixed.
  destruct (xoshiro256ss.all_zero (xoshiro256ss.mixed seed)) eqn:E.
  - reflexivity.
  - exact E.
Qed.

Lemma next_u64_wf (g : xoshiro256ss.t) :
  xoshiro256ss.wf g -> xoshiro256ss.wf (snd (xoshiro256ss.next_u64 g)).
Proof.
  destruct g as [a b c d]. unfold xoshiro256ss.wf, xoshiro256ss.next_u64.
  cbn [snd xoshiro256ss.s0 xoshiro256ss.s1 xoshiro256ss.s2 xoshiro256ss.s3].
  intros (Ha & Hb & Hc & Hd).
  assert (Hca : 0 <= Z.lxor c a < 2 ^ 64) by (apply lxor_range; lia).
  assert (Hdb : 0 <= Z.lxor d b < 2 ^ 64) by (apply lxor_range; lia).
  pose proof (wrap64_range (Z.shiftl b 17)) as Ht.
  assert (H0 : 0 <= Z.lxor a (Z.lxor d b) < 2 ^ 64) by (apply lxor_range; lia).
  assert (H1 : 0 <= Z.lxor b (Z.lxor c a) < 2 ^ 64) by (apply lxor_range; lia).
  assert (H2 : 0 <= Z.lxor (Z.lxor c a) (wrap64 (Z.shiftl b 17)) < 2 ^ 64)
    by (apply lxor_range; lia).
  assert (H3 : 0 <= rotl64 (Z.lxor d b) 45 < 2 ^ 64)
    by (apply rotl64_range; lia).
  auto.
Qed.

(** One draw never takes a state that is not all zero to the all-zero
    state. *)
Lemma next_u64_nonzero (g : xoshiro256ss.t) :
  xoshiro256ss.wf g ->
  xoshiro256ss.all_zero g = false ->
  xoshiro256ss.all_zero (snd (xoshiro256ss.next_u64 g)) = false.
Proof.
  intros Hwf Hnz.
  destruct (xoshiro256ss.all_zero (snd (xoshiro256ss.next_u64 g))) eqn:E;
    [|reflexivity].
  exfalso. apply all_zero_true in E.
  destruct g as [a b c d]. unfold xoshiro256ss.wf in Hwf.
  unfold xoshiro256ss.next_u64 in E.
  cbn [snd xoshiro256ss.s0 xoshiro256ss.s1 xoshiro256ss.s2 xoshiro256ss.s3] in *.
  destruct Hwf as (Ha & Hb & Hc & Hd).
  destruct E as (E0 & E1 & E2 & E3).
  apply rotl64_45_zero in E3; [|apply lxor_range; lia].
  rewrite E3, Z.lxor_0_r in E0. subst a.
  rewrite Z.lxor_0_r in E1, E2.
  apply Z.lxor_eq in E3. apply Z.lxor_eq in E1. apply Z.lxor_eq in E2.
  rewrite <- E1 in E2. apply shl17_fixed in E2; [|lia].
  rewrite <- E1, E3, E2 in Hnz. cbv in Hnz. discriminate.
Qed.

Lemma advance_invariant (n : nat) (g : xoshiro256ss.t) :
  xoshiro256ss.wf g ->
  xoshiro256ss.all_zero g = false ->
  xoshiro256ss.wf (xoshiro256ss.advance n g) /\
  xoshiro256ss.all_zero (xoshiro256ss.advance n g) = false.
Proof.
  revert g. induction n as [|n IH]; intros g Hwf Hnz; cbn [xoshiro256ss.advance].
  - split; assumption.
  - apply IH; [apply next_u64_wf|apply next_u64_nonzero]; assumption.
Qed.

(* ------------------------------------------------------------------ *)
(** ** Powers of two and the test [(bound & (bound - 1)) == 0] *)

Lemma pow2_land (k : Z) : 0 <= k -> Z.land (2 ^ k) (2 ^ k - 1) = 0.
Proof.
  intros Hk. replace (2 ^ k - 1) with (Z.ones k)
    by (rewrite Z.ones_equiv; lia).
  rewrite Z.land_ones by lia. apply Z.mod_same.
  apply Z.pow_nonzero; lia.
Qed.

Lemma land_pred_zero_pow2 (b : Z) :
  0 < b -> Z.land b (b - 1) = 0 -> pow2 b.
Proof.
  intros Hb E.
  pose proof (Z.log2_nonneg b) as Hk.
  pose proof (Z.log2_spec b Hb) as [Hlo Hhi].
  exists (Z.log2 b). split; [exact Hk|].
  destruct (Z.eq_dec b (2 ^ Z.log2 b)) as [|Hne]; [assumption|exfalso].
  assert (Hl : Z.log2 (b - 1) = Z.log2 b).
  { apply Z.log2_unique; [exact Hk|].
    replace (Z.succ (Z.log2 b)) with (Z.log2 b + 1) in * by lia. lia. }
  assert (Hbit : Z.testbit (Z.land b (b - 1)) (Z.log2 b) = true).
  { rewrite Z.land_spec, (Z.bit_log2 b Hb), <- Hl.
    rewrite Z.bit_log2 by lia. reflexivity. }
  rewrite E, Z.bits_0 in Hbit. discriminate.
Qed.

Lemma divisor_pow2 (n : nat) (b : Z) :
  0 < b -> (b | 2 ^ Z.of_nat n) -> pow2 b.
Proof.
  revert b. induction n as [|n IH]; intros b Hb Hd.
  - exists 0. split; [lia|].
    change (2 ^ Z.of_nat 0) with 1 in Hd.
    apply Z.divide_1_r_nonneg in Hd; lia.
  - rewrite Nat2Z.inj_succ, Z.pow_succ_r in Hd by lia.
    destruct (Z.eq_dec (b mod 2) 0) as [Ev|Od].
    + apply Z.mod_divide in Ev; [|lia]. destruct Ev as [c Hc].
      assert (Hcp : 0 < c) by lia.
      assert (Hcd : (c | 2 ^ Z.of_nat n)).
      { destruct Hd as [q Hq]. exists q. nia. }
      destruct (IH c Hcp Hcd) as (k & Hk & ->).
      exists (k + 1). split; [lia|].
      rewrite Z.pow_add_r by lia. lia.
    + apply (IH b Hb). apply Z.gauss with 2; [exact Hd|].
      assert (Hg : (Z.gcd b 2 | 2)) by apply Z.gcd_divide_r.
      assert (Hg1 : (Z.gcd b 2 | b)) by apply Z.gcd_divide_l.
      pose proof (Z.gcd_nonneg b 2) as Hnn.
      apply Z.divide_pos_le in Hg as Hle; [|lia].
      assert (Hc : Z.gcd b 2 = 0 \/ Z.gcd b 2 = 1 \/ Z.gcd b 2 = 2) by lia.
      destruct Hc as [Hc|[Hc|Hc]].
      * rewrite Hc in Hg. destruct Hg as [q Hq]. lia.
      * exact Hc.
      * rewrite Hc in Hg1. apply Z.mod_divide in Hg1; lia.
Qed.

Lemma pow2_divides (b n : Z) :
  pow2 b -> b <= 2 ^ n -> 0 <= n -> 2 ^ n mod b = 0.
Proof.
  intros (k & Hk & ->) Hle Hn.
  assert (k <= n).
  { apply (Z.pow_le_mono_r_iff 2); lia. }
  replace n with ((n - k) + k) by lia.
  rewrite Z.pow_add_r by lia. apply Z.mod_mul.
  apply Z.pow_nonzero; lia.
Qed.

Lemma not_pow2_remainder (b : Z) :
  0 < b -> ~ pow2 b -> 0 < 2 ^ 64 mod b < b.
Proof.
  intros Hb Hn.
  pose proof (Z.mod_pos_bound (2 ^ 64) b Hb) as Hr.
  destruct (Z.eq_dec (2 ^ 64 mod b) 0) as [E|]; [exfalso|lia].
  apply Hn. apply (divisor_pow2 64 b Hb).
  apply Z.mod_divide in E; [exact E|lia].
Qed.

(** The code's test decides [pow2] on every non-zero [UInt]. *)
Lemma pow2_test (bits bound : Z) :
  0 < bound < 2 ^ bits ->
  (Z.land bound (wrap bits (bound - 1)) =? 0) = true <-> pow2 bound.
Proof.
  intros Hb. rewrite wrap_small by lia. rewrite Z.eqb_eq. split.
  - apply land_pred_zero_pow2. lia.
  - intros (k & Hk & ->). apply pow2_land. exact Hk.
Qed.

(* ------------------------------------------------------------------ *)
(** ** Counting *)

Lemma count_below_ext (P Q : Z -> bool) (n : nat) :
  (forall x, 0 <= x < Z.of_nat n -> P x = Q x) ->
  count_below P n = count_below Q n.
Proof.
  induction n as [|n IH]; intros HPQ; cbn [count_below].
  - reflexivity.
  - rewrite IH by (intros x Hx; apply HPQ; lia).
    rewrite HPQ by lia. reflexivity.
Qed.

(** Nothing is counted past a point from which [P] fails. *)
Lemma count_below_cut (P : Z -> bool) (m k : nat) :
  (forall x, Z.of_nat m <= x -> P x = false) ->
  count_below P (m + k) = count_below P m.
Proof.
  intros HP. induction k as [|k IH].
  - rewrite Nat.add_0_r. reflexivity.
  - rewrite Nat.add_succ_r. cbn [count_below].
    rewrite IH, HP by lia. lia.
Qed.

(** The words of an interval. *)
Lemma count_below_interval (lo hi : Z) (n : nat) :
  0 <= lo <= hi ->
  count_below (fun x => (lo <=? x) && (x <? hi)) n
  = Z.max 0 (Z.min hi (Z.of_nat n) - lo).
Proof.
  intros Hlh. induction n as [|n IH]; cbn [count_below].
  - lia.
  - rewrite IH.
    destruct (Z.leb_spec lo (Z.of_nat n)), (Z.ltb_spec (Z.of_nat n) hi);
      cbn [andb]; lia.
Qed.

(** The words of one residue class. *)
Lemma count_below_residue (b v : Z) (n : nat) :
  0 <= v < b ->
  count_below (fun x => x mod b =? v) n
  = Z.of_nat n / b + (if v <? Z.of_nat n mod b then 1 else 0).
Proof.
  intros Hv. induction n as [|n IH]; cbn [count_below].
  - cbn. destruct (Z.ltb_spec v 0); lia.
  - rewrite IH. rewrite Nat2Z.inj_succ.
    set (m := Z.of_nat n).
    pose proof (Z.div_mod m b ltac:(lia)) as Hdm.
    pose proof (Z.mod_pos_bound m b ltac:(lia)) as Hr.
    destruct (Z.eq_dec (m mod b) (b - 1)) as [E|E].
    + assert (Hq : Z.succ m / b = m / b + 1).
      { symmetry. apply Z.div_unique with 0; lia. }
      assert (Hm : Z.succ m mod b = 0).
      { symmetry. apply Z.mod_unique with (m / b + 1); lia. }
      rewrite Hq, Hm.
      destruct (Z.ltb_spec v (m mod b)), (Z.eqb_spec (m mod b) v),
        (Z.ltb_spec v 0); lia.
    + assert (Hq : Z.succ m / b = m / b).
      { symmetry. apply Z.div_unique with (m mod b + 1); lia. }
      assert (Hm : Z.succ m mod b = m mod b + 1).
      { symmetry. apply Z.mod_unique with (m / b); lia. }
      rewrite Hq, Hm.
      destruct (Z.ltb_spec v (m mod b)), (Z.eqb_spec (m mod b) v),
        (Z.ltb_spec v (m mod b + 1)); lia.
Qed.

Lemma count_u64_ext (P Q : Z -> bool) :
  (forall x, 0 <= x < 2 ^ 64 -> P x = Q x) -> count_u64 P = count_u64 Q.
Proof.
  intros HPQ. unfold count_u64. apply count_below_ext.
  rewrite Z2Nat.id by lia. exact HPQ.
Qed.

Lemma count_u64_interval (lo hi : Z) :
  0 <= lo <= hi -> hi <= 2 ^ 64 ->
  count_u64 (fun x => (lo <=? x) && (x <? hi)) = hi - lo.
Proof.
  intros Hlh Hhi. unfold count_u64.
  rewrite count_below_interval by exact Hlh.
  rewrite Z2Nat.id by lia. lia.
Qed.

Lemma count_u64_residue (b v : Z) :
  0 <= v < b ->
  count_u64 (fun x => x mod b =? v)
  = 2 ^ 64 / b + (if v <? 2 ^ 64 mod b then 1 else 0).
Proof.
  intros Hv. unfold count_u64.
  rewrite count_below_residue by exact Hv.
  rewrite Z2Nat.id by lia. reflexivity.
Qed.

(** The words of one residue class below a multiple [q * b]. *)
Lemma count_u64_residue_below (b q v : Z) :
  0 <= v < b -> 0 <= q -> q * b <= 2 ^ 64 ->
  count_u64 (fun x => (x <? q * b) && (x mod b =? v)) = q.
Proof.
  intros Hv Hq Hle. unfold count_u64.
  replace (Z.to_nat (2 ^ 64))
    with (Z.to_nat (q * b) + Z.to_nat (2 ^ 64 - q * b))%nat
    by (rewrite <- Z2Nat.inj_add by nia; f_equal; lia).
  rewrite count_below_cut.
  - rewrite (count_below_ext _ (fun x => x mod b =? v)).
    + rewrite count_below_residue by exact Hv.
      rewrite Z2Nat.id by nia.
      rewrite Z.div_mul, Z.mod_mul by lia.
      destruct (Z.ltb_spec v 0); lia.
    + intros x Hx. rewrite Z2Nat.id in Hx by nia.
      destruct (Z.ltb_spec x (q * b)); [reflexivity|lia].
  - intros x Hx. rewrite Z2Nat.id in Hx by nia.
    destruct (Z.ltb_spec x (q * b)); [lia|reflexivity].
Qed.

(* ------------------------------------------------------------------ *)
(** ** The bounded sampler, draw by draw *)

Lemma outcome_eq (p : platform) (bits bound x : Z) :
  bound <> 0 ->
  outcome p bits bound x =
  if Z.land bound (wrap bits (bound - 1)) =? 0
  then Some (wrap bits (Z.land x (wrap64 (wrap64 bound - 1))))
  else loop_body p bits (wrap64 bound) (threshold_of bound) x.
Proof.
  intros Hb. unfold outcome, uniform_bounded.
  destruct (Z.eqb_spec bound 0) as [|_]; [contradiction|].
  destruct (Z.land bound (wrap bits (bound - 1)) =? 0).
  - reflexivity.
  - unfold threshold_of.
    cbn [rejection_loop rng_next_u64 fixed_draw_Rng the_draw].
    destruct (loop_body p bits (wrap64 bound) _ x); reflexivity.
Qed.

(** On any generator, [uniform_bounded] draws a word, returns what
    [outcome] makes of it, and starts again when the word is rejected. *)
Lemma uniform_bounded_step {R : Type} `{Rng R}
      (fuel : nat) (p : platform) (bits : Z) (rng : R) (bound : Z) :
  bound <> 0 ->
  uniform_bounded (S fuel) p bits rng bound =
  match outcome p bits bound (fst (rng_next_u64 rng)) with
  | Some v => Some (v, snd (rng_next_u64 rng))
  | None => uniform_bounded fuel p bits (snd (rng_next_u64 rng)) bound
  end.
Proof.
  intros Hb. rewrite outcome_eq by exact Hb. unfold uniform_bounded.
  destruct (Z.eqb_spec bound 0) as [|_]; [contradiction|].
  destruct (Z.land bound (wrap bits (bound - 1)) =? 0).
  - destruct (rng_next_u64 rng) as [x rng']. reflexivity.
  - unfold threshold_of. cbn [rejection_loop].
    destruct (rng_next_u64 rng) as [x rng']. reflexivity.
Qed.

(** The threshold is [2^64 mod bound]. *)
Lemma threshold_of_spec (bound : Z) :
  0 < bound < 2 ^ 64 -> threshold_of bound = spec_threshold bound.
Proof.
  intros Hb. unfold threshold_of, spec_threshold.
  rewrite (wrap64_small bound) by lia.
  unfold wrap64.
  replace (0 - bound) with (2 ^ 64 - bound + (-1) * 2 ^ 64) by lia.
  rewrite Z.mod_add by lia.
  rewrite (Z.mod_small (2 ^ 64 - bound)) by lia.
  replace (2 ^ 64 - bound) with (2 ^ 64 + (-1) * bound) by lia.
  apply Z.mod_add. lia.
Qed.

(** The low and high words of a product of two 64-bit words. *)
Lemma product_words (x b : Z) :
  0 <= x < 2 ^ 64 -> 0 < b < 2 ^ 64 ->
  wrap64 (wrap128 (x * b)) = (x * b) mod 2 ^ 64 /\
  Z.shiftr (wrap128 (x * b)) 64 = (x * b) / 2 ^ 64 /\
  0 <= (x * b) / 2 ^ 64 < b.
Proof.
  intros Hx Hb.
  assert (Hp : 0 <= x * b < 2 ^ 128).
  { change (2 ^ 128) with (2 ^ 64 * 2 ^ 64). nia. }
  unfold wrap128. rewrite Z.mod_small by exact Hp.
  rewrite Z.shiftr_div_pow2 by lia.
  repeat split.
  - apply Z.div_pos; lia.
  - apply Z.div_lt_upper_bound; nia.
Qed.

(** The three loop bodies, for a draw and a bound that fit their types. *)
Lemma loop_body_wide (p : platform) (bits b t x : Z) :
  p <> Portable ->
  0 < bits <= 64 -> 0 < b < 2 ^ bits -> 0 <= x < 2 ^ 64 ->
  loop_body p bits b t x =
  if t <=? (x * b) mod 2 ^ 64 then Some ((x * b) / 2 ^ 64) else None.
Proof.
  intros Hp Hbits Hb Hx.
  pose proof (pow2_le_64 bits Hbits) as Hw.
  destruct (product_words x b Hx ltac:(lia)) as (Hlo & Hhi & Hr).
  destruct p; [| |contradiction]; unfold loop_body, umul128.
  - rewrite Hlo, Hhi, wrap_small by lia. reflexivity.
  - rewrite Hhi. rewrite (wrap64_small (x * b / 2 ^ 64)) by lia.
    rewrite wrap_small by lia. reflexivity.
Qed.

Lemma loop_body_portable (bits b t x : Z) :
  0 < bits <= 64 -> 0 < b < 2 ^ bits -> 0 <= x < 2 ^ 64 ->
  loop_body Portable bits b t x =
  if x <? ((2 ^ 64 - 1) / b) * b then Some (x mod b) else None.
Proof.
  intros Hbits Hb Hx.
  pose proof (pow2_le_64 bits Hbits) as Hw.
  unfold loop_body, UINT64_MAX.
  assert (Hq : 0 <= (2 ^ 64 - 1) / b) by (apply Z.div_pos; lia).
  assert (Hl : (2 ^ 64 - 1) / b * b <= 2 ^ 64 - 1).
  { rewrite Z.mul_comm. apply Z.mul_div_le. lia. }
  rewrite wrap64_small by nia.
  pose proof (Z.mod_pos_bound x b ltac:(lia)).
  rewrite wrap_small by lia. reflexivity.
Qed.

(* ------------------------------------------------------------------ *)
(** ** How many draws give each value *)

Section Counts.

Variables (bits bound v : Z).
Hypothesis Hbits : 0 < bits <= 64.
Hypothesis Hbound : 0 < bound < 2 ^ bits.
Hypothesis Hv : 0 <= v < bound.

Let Hwidth : 0 < 2 ^ bits <= 2 ^ 64 := pow2_le_64 bits Hbits.

(** The mask path. *)
Lemma draws_mask (p : platform) :
  pow2 bound -> draws_mapped_to p bits bound v = 2 ^ 64 / bound.
Proof.
  intros Hp. unfold draws_mapped_to.
  rewrite (count_u64_ext _ (fun x => x mod bound =? v)).
  - rewrite count_u64_residue by exact Hv.
    rewrite (pow2_divides bound 64 Hp) by lia.
    destruct (Z.ltb_spec v 0); lia.
  - intros x Hx. rewrite outcome_eq by lia.
    destruct (pow2_test bits bound Hbound) as [_ Ht]. rewrite (Ht Hp).
    rewrite (wrap64_small bound), (wrap64_small (bound - 1)) by lia.
    destruct Hp as (k & Hk & E).
    replace (bound - 1) with (Z.ones k) by (rewrite Z.ones_equiv; lia).
    rewrite Z.land_ones, <- E by exact Hk.
    pose proof (Z.mod_pos_bound x bound ltac:(lia)).
    rewrite wrap_small by lia. reflexivity.
Qed.

(** The window of draws that a wide multiply sends to [v]. *)
Lemma wide_window (x : Z) :
  0 <= x < 2 ^ 64 ->
  let lo := (v * 2 ^ 64 + 2 ^ 64 mod bound + bound - 1) / bound in
  (2 ^ 64 mod bound <= (x * bound) mod 2 ^ 64 /\ (x * bound) / 2 ^ 64 = v)
  <-> lo <= x < lo + 2 ^ 64 / bound.
Proof.
  intros Hx lo.
  set (M := 2 ^ 64) in *.
  assert (HM : 0 < M) by (unfold M; lia).
  pose proof (Z.div_mod M bound ltac:(lia)) as HMd.
  pose proof (Z.mod_pos_bound M bound ltac:(lia)) as HMr.
  pose proof (Z.div_mod (x * bound) M ltac:(lia)) as Hxd.
  pose proof (Z.mod_pos_bound (x * bound) M HM) as Hxr.
  pose proof (Z.div_mod (v * M + M mod bound + bound - 1) bound ltac:(lia))
    as Hld.
  pose proof (Z.mod_pos_bound (v * M + M mod bound + bound - 1) bound
                ltac:(lia)) as Hlr.
  fold lo in Hld.
  set (t := M mod bound) in *. set (q := M / bound) in *.
  set (h := x * bound / M) in *. set (l := (x * bound) mod M) in *.
  set (r := (v * M + t + bound - 1) mod bound) in *.
  assert (Hlo1 : v * M + t <= bound * lo) by lia.
  assert (Hlo2 : bound * lo <= v * M + t + bound - 1) by lia.
  split.
  - intros [Hacc Hh]. rewrite Hh in Hxd.
    split.
    + assert (bound * lo < bound * (x + 1)) by lia. nia.
    + assert (bound * x < bound * (lo + q)) by lia. nia.
  - intros [Hl Hu].
    assert (H1 : bound * lo <= bound * x) by nia.
    assert (H2 : bound * x <= bound * (lo + q - 1)) by nia.
    assert (H3 : v * M + t <= x * bound) by lia.
    assert (H4 : x * bound < (v + 1) * M) by lia.
    assert (Hh : h = v) by nia.
    split; [|exact Hh]. rewrite Hh in Hxd. lia.
Qed.

Lemma wide_window_bounds :
  let lo := (v * 2 ^ 64 + 2 ^ 64 mod bound + bound - 1) / bound in
  0 <= lo /\ 0 <= 2 ^ 64 / bound /\ lo + 2 ^ 64 / bound <= 2 ^ 64.
Proof.
  intros lo.
  set (M := 2 ^ 64) in *.
  assert (HM : 0 < M) by (unfold M; lia).
  pose proof (Z.div_mod M bound ltac:(lia)) as HMd.
  pose proof (Z.mod_pos_bound M bound ltac:(lia)) as HMr.
  pose proof (Z.div_mod (v * M + M mod bound + bound - 1) bound ltac:(lia))
    as Hld.
  pose proof (Z.mod_pos_bound (v * M + M mod bound + bound - 1) bound
                ltac:(lia)) as Hlr.
  fold lo in Hld.
  assert (Hq : 0 <= M / bound) by (apply Z.div_pos; lia).
  assert (Hlo : 0 <= lo) by (apply Z.div_pos; nia).
  repeat split; try assumption.
  assert (Hm : bound * (lo + M / bound) < bound * (M + 1)) by nia.
  nia.
Qed.

(** The wide-multiply rejection paths. *)
Lemma draws_wide (p : platform) :
  p <> Portable -> ~ pow2 bound ->
  draws_mapped_to p bits bound v = 2 ^ 64 / bound.
Proof.
  intros Hp Hn. unfold draws_mapped_to.
  set (lo := (v * 2 ^ 64 + 2 ^ 64 mod bound + bound - 1) / bound).
  rewrite (count_u64_ext _ (fun x => (lo <=? x) && (x <? lo + 2 ^ 64 / bound))).
  - destruct wide_window_bounds as (H0 & H1 & H2). fold lo in H0, H2.
    rewrite count_u64_interval by lia. lia.
  - intros x Hx. rewrite outcome_eq by lia.
    destruct (Z.land bound (wrap bits (bound - 1)) =? 0) eqn:Et.
    { exfalso. apply Hn. apply (pow2_test bits bound Hbound). exact Et. }
    rewrite threshold_of_spec, (wrap64_small bound) by lia.
    rewrite loop_body_wide by (assumption || lia).
    unfold spec_threshold.
    pose proof (wide_window x Hx) as Hw. cbv zeta in Hw. fold lo in Hw.
    destruct (Z.leb_spec (2 ^ 64 mod bound) ((x * bound) mod 2 ^ 64));
      cbn [yields].
    + destruct (Z.eqb_spec (x * bound / 2 ^ 64) v);
        destruct (Z.leb_spec lo x), (Z.ltb_spec x (lo + 2 ^ 64 / bound));
        cbn [andb]; try reflexivity; exfalso; lia.
    + destruct (Z.leb_spec lo x), (Z.ltb_spec x (lo + 2 ^ 64 / bound));
        cbn [andb]; try reflexivity; exfalso; lia.
Qed.

(** The portable rejection path. *)
Lemma draws_portable :
  ~ pow2 bound -> draws_mapped_to Portable bits bound v = 2 ^ 64 / bound.
Proof.
  intros Hn. unfold draws_mapped_to.
  pose proof (not_pow2_remainder bound ltac:(lia) Hn) as Hr.
  pose proof (Z.div_mod (2 ^ 64) bound ltac:(lia)) as Hd.
  assert (Hq : (2 ^ 64 - 1) / bound = 2 ^ 64 / bound).
  { symmetry. apply Z.div_unique with (2 ^ 64 mod bound - 1); lia. }
  assert (Hq0 : 0 <= 2 ^ 64 / bound) by (apply Z.div_pos; lia).
  rewrite (count_u64_ext _
    (fun x => (x <? 2 ^ 64 / bound * bound) && (x mod bound =? v))).
  - apply count_u64_residue_below; lia.
  - intros x Hx. rewrite outcome_eq by lia.
    destruct (Z.land bound (wrap bits (bound - 1)) =? 0) eqn:Et.
    { exfalso. apply Hn. apply (pow2_test bits bound Hbound). exact Et. }
    rewrite (wrap64_small bound) by lia.
    rewrite loop_body_portable by (assumption || lia).
    rewrite Hq.
    destruct (x <? 2 ^ 64 / bound * bound); reflexivity.
Qed.

End Counts.

(** Whatever [uniform_bounded] returns on a draw lies below the bound. *)
Lemma outcome_range (p : platform) (bits bound x r : Z) :
  0 < bits <= 64 -> 0 < bound < 2 ^ bits -> 0 <= x < 2 ^ 64 ->
  outcome p bits bound x = Some r -> 0 <= r < bound.
Proof.
  intros Hbits Hbound Hx.
  pose proof (pow2_le_64 bits Hbits) as Hw.
  rewrite outcome_eq by lia.
  destruct (Z.land bound (wrap bits (bound - 1)) =? 0) eqn:Et.
  - apply (pow2_test bits bound Hbound) in Et. destruct Et as (k & Hk & E).
    rewrite (wrap64_small bound), (wrap64_small (bound - 1)) by lia.
    replace (bound - 1) with (Z.ones k) by (rewrite Z.ones_equiv; lia).
    rewrite Z.land_ones, <- E by exact Hk.
    pose proof (Z.mod_pos_bound x bound ltac:(lia)).
    rewrite wrap_small by lia. intros [= <-]. assumption.
  - rewrite (wrap64_small bound) by lia.
    destruct p.
    + rewrite loop_body_wide by (discriminate || assumption).
      destruct (product_words x bound Hx ltac:(lia)) as (_ & _ & Hr).
      destruct (_ <=? _); [intros [= <-]; assumption|discriminate].
    + rewrite loop_body_wide by (discriminate || assumption).
      destruct (product_words x bound Hx ltac:(lia)) as (_ & _ & Hr).
      destruct (_ <=? _); [intros [= <-]; assumption|discriminate].
    + rewrite loop_body_portable by assumption.
      destruct (_ <? _); [intros [= <-]|discriminate].
      apply Z.mod_pos_bound. lia.
Qed.

(** Every value below the bound is given by [2^64 / bound] draws,
    whichever path the sampler takes. *)
Lemma draws_mapped_to_value (p : platform) (bits bound v : Z) :
  0 < bits <= 64 -> 0 < bound < 2 ^ bits -> 0 <= v < bound ->
  draws_mapped_to p bits bound v = 2 ^ 64 / bound.
Proof.
  intros Hbits Hbound Hv.
  destruct (Z.land bound (wrap bits (bound - 1)) =? 0) eqn:Et.
  - apply draws_mask; try assumption.
    apply (pow2_test bits bound Hbound). exact Et.
  - assert (Hn : ~ pow2 bound).
    { intros Hp. apply (pow2_test bits bound Hbound) in Hp. congruence. }
    destruct p.
    + apply draws_wide; (discriminate || assumption).
    + apply draws_wide; (discriminate || assumption).
    + apply draws_portable; assumption.
Qed.

Lemma quotient_positive (bits bound : Z) :
  0 < bits <= 64 -> 0 < bound < 2 ^ bits -> 0 < 2 ^ 64 / bound.
Proof.
  intros Hbits Hbound. pose proof (pow2_le_64 bits Hbits).
  apply Z.div_str_pos. lia.
Qed.

Lemma not_pow2_6 : ~ pow2 6.
Proof.
  intros Hp. apply (pow2_test 32 6 ltac:(lia)) in Hp. discriminate.
Qed.

(** Every draw of xoshiro256** is a 64-bit word. *)
Lemma xoshiro256ss_draw_range (g : xoshiro256ss.t) :
  0 <= fst (rng_next_u64 g) < 2 ^ 64.
Proof. cbn. apply wrap64_range. Qed.

(** More fuel never changes a result already returned. *)
Lemma rejection_loop_fuel {R : Type} `{Rng R}
      (fuel : nat) (p : platform) (bits b t : Z) (rng : R) (r : Z * R) :
  rejection_loop fuel p bits b t rng = Some r ->
  rejection_loop (S fuel) p bits b t rng = Some r.
Proof.
  revert rng. induction fuel as [|fuel IH]; intros rng; [discriminate|].
  intros E. cbn [rejection_loop] in E |- *.
  destruct (rng_next_u64 rng) as [x rng'].
  destruct (loop_body p bits b t x); [exact E|].
  apply IH in E. exact E.
Qed.

Lemma uniform_bounded_fuel {R : Type} `{Rng R}
      (fuel : nat) (p : platform) (bits : Z) (rng : R) (bound : Z)
      (r : Z * R) :
  uniform_bounded fuel p bits rng bound = Some r ->
  uniform_bounded (S fuel) p bits rng bound = Some r.
Proof.
  unfold uniform_bounded.
  destruct (bound =? 0); [trivial|].
  destruct (Z.land bound (wrap bits (bound - 1)) =? 0); [trivial|].
  apply rejection_loop_fuel.
Qed.

(* ------------------------------------------------------------------ *)
(** ** Known answers *)

(** The first four outputs of splitmix64 from seed 0. *)
Example mixed_seed_0 :
  xoshiro256ss.mixed 0 =
  xoshiro256ss.mk 0xE220A8397B1DCDAF 0x6E789E6AA1B965F4
                  0x06C45D188009454F 0xF88BB8A8724C81EC.
Proof. vm_compute. reflexivity. Qed.

(** One step of xoshiro256** from the state 1, 2, 3, 4. *)
Example next_u64_1234 :
  xoshiro256ss.next_u64 (xoshiro256ss.mk 1 2 3 4) =
  (11520, xoshiro256ss.mk 7 0 262146 211106232532992).
Proof. vm_compute. reflexivity. Qed.

(** With bound 3 the draw 0 is rejected by the wide multiply (its low
    word 0 is below the threshold 1) and the draw 1 is mapped to 0. *)
Example outcome_bound_3 :
  outcome Int128 64 3 0 = None /\ outcome Int128 64 3 1 = Some 0 /\
  outcome Portable 64 3 (2 ^ 64 - 1) = None /\
  outcome Portable 64 3 (2 ^ 64 - 2) = Some 2.
Proof. vm_compute. repeat split. Qed.

(** On the all-zero state, which [seed_with] never leaves behind, every
    draw is 0 and the rejection loop does not return. *)
Example loop_on_all_zero_state (fuel : nat) :
  uniform_bounded fuel Int128 32 (xoshiro256ss.mk 0 0 0 0) 3 = None.
Proof.
  unfold uniform_bounded. cbn [Z.eqb]. change (Z.land 3 (wrap 32 (3 - 1)) =? 0) with false.
  cbv iota. induction fuel as [|fuel IH]; [reflexivity|].
  cbn [rejection_loop]. exact IH.
Qed.

(* ------------------------------------------------------------------ *)
(** ** The properties of the specification *)

(** C1. For every bound > 0, every value of [0, bound) is produced with
    equal probability: among the 2^64 possible draws, the number that
    [uniform_bounded] accepts and maps to [v] is the same for every [v]
    below the bound (it is [2^64 / bound], which is positive), and no
    draw is mapped outside [0, bound).  This holds on the mask path and
    on each of the rejection paths. *)
Theorem uniform_bounded_equiprobable (p : platform) (bits bound : Z) :
  0 < bits <= 64 -> 0 < bound < 2 ^ bits ->
  (forall x r, 0 <= x < 2 ^ 64 ->
               outcome p bits bound x = Some r -> 0 <= r < bound) /\
  (forall v w, 0 <= v < bound -> 0 <= w < bound ->
               draws_mapped_to p bits bound v = draws_mapped_to p bits bound w) /\
  (forall v, 0 <= v < bound ->
             draws_mapped_to p bits bound v = 2 ^ 64 / bound) /\
  0 < 2 ^ 64 / bound.
Proof.
  intros Hbits Hbound. split; [|split; [|split]].
  - intros x r Hx. apply outcome_range; assumption.
  - intros v w Hv Hw.
    rewrite !draws_mapped_to_value by assumption. reflexivity.
  - intros v Hv. apply draws_mapped_to_value; assumption.
  - eapply quotient_positive; eassumption.
Qed.

Lemma uniform_bounded_equiprobable_witness :
  draws_mapped_to Int128 32 6 0 = draws_mapped_to Int128 32 6 5.
Proof.
  apply (proj1 (proj2 (uniform_bounded_equiprobable Int128 32 6
                         ltac:(lia) ltac:(lia)))); lia.
Defined.

(** C2. [one_in] returns true when [bound <= 1], drawing nothing and
    leaving the generator as it was; when [bound > 1] its result is that
    of [uniform_bounded] on the same generator compared with 0, so it
    returns true exactly when the bounded sampler yields 0. *)
Theorem one_in_contract {R : Type} `{Rng R}
        (fuel : nat) (p : platform) (bits : Z) (rng : R) (bound : Z) :
  (bound <= 1 -> one_in fuel p bits rng bound = Some (true, rng)) /\
  (1 < bound ->
   one_in fuel p bits rng bound =
   match uniform_bounded fuel p bits rng bound with
   | Some (v, rng') => Some (v =? 0, rng')
   | None => None
   end) /\
  (1 < bound ->
   forall rng', one_in fuel p bits rng bound = Some (true, rng') <->
                uniform_bounded fuel p bits rng bound = Some (0, rng')).
Proof.
  unfold one_in. split; [|split].
  - intros Hb. destruct (Z.leb_spec bound 1); [reflexivity|lia].
  - intros Hb. destruct (Z.leb_spec bound 1); [lia|reflexivity].
  - intros Hb rng'. destruct (Z.leb_spec bound 1); [lia|].
    destruct (uniform_bounded fuel p bits rng bound) as [[v g]|].
    + split.
      * intros [= Hv ->]. apply Z.eqb_eq in Hv. subst v. reflexivity.
      * intros [= -> ->]. reflexivity.
    + split; discriminate.
Qed.

Lemma one_in_contract_witness :
  one_in 0 Portable 32 xoshiro256ss.default 1
  = Some (true, xoshiro256ss.default) /\
  one_in 4 Portable 32 xoshiro256ss.default 6 =
  match uniform_bounded 4 Portable 32 xoshiro256ss.default 6 with
  | Some (v, rng') => Some (v =? 0, rng')
  | None => None
  end.
Proof.
  split.
  - apply (proj1 (one_in_contract 0 Portable 32 xoshiro256ss.default 1)). lia.
  - apply (proj1 (proj2 (one_in_contract 4 Portable 32 xoshiro256ss.default 6))).
    lia.
Defined.

(** C3. The generator state is never all zero: [seed_with] gives, for
    every seed, a state that is not all zero -- the mixer's four words,
    which are never all zero, with the fixed fallback state (itself not
    all zero) substituted should they be; [next_u64] takes a state that
    is not all zero to one that is not all zero; and so no number of
    draws from a seeded state reaches the all-zero state. *)
Theorem state_never_all_zero :
  (forall g seed,
      xoshiro256ss.wf (xoshiro256ss.seed_with g seed) /\
      xoshiro256ss.all_zero (xoshiro256ss.seed_with g seed) = false) /\
  (forall g seed,
      xoshiro256ss.seed_with g seed =
      if xoshiro256ss.all_zero (xoshiro256ss.mixed seed)
      then xoshiro256ss.fallback else xoshiro256ss.mixed seed) /\
  xoshiro256ss.all_zero xoshiro256ss.fallback = false /\
  (forall seed, xoshiro256ss.all_zero (xoshiro256ss.mixed seed) = false) /\
  (forall g,
      xoshiro256ss.wf g -> xoshiro256ss.all_zero g = false ->
      xoshiro256ss.wf (snd (xoshiro256ss.next_u64 g)) /\
      xoshiro256ss.all_zero (snd (xoshiro256ss.next_u64 g)) = false) /\
  (forall g seed n,
      xoshiro256ss.all_zero
        (xoshiro256ss.advance n (xoshiro256ss.seed_with g seed)) = false).
Proof.
  split; [|split; [|split; [|split; [|split]]]].
  - intros g seed. split; [apply seed_with_wf|apply seed_with_nonzero].
  - apply seed_with_mixed.
  - reflexivity.
  - apply mixed_nonzero.
  - intros g Hwf Hnz. split; [apply next_u64_wf|apply next_u64_nonzero];
      assumption.
  - intros g seed n.
    apply advance_invariant; [apply seed_with_wf|apply seed_with_nonzero].
Qed.

Lemma state_never_all_zero_witness :
  xoshiro256ss.wf (snd (xoshiro256ss.next_u64 xoshiro256ss.default)) /\
  xoshiro256ss.all_zero (snd (xoshiro256ss.next_u64 xoshiro256ss.default))
  = false.
Proof.
  apply (proj1 (proj2 (proj2 (proj2 (proj2 state_never_all_zero))))).
  - unfold xoshiro256ss.wf. cbn. lia.
  - reflexivity.
Defined.

(** C4. For every bound > 0 the threshold [(0 - bound) mod bound],
    computed with 64-bit wrap-around, is [2^64 mod bound]; and on the
    wide-multiply paths, for a bound that is not a power of two, the
    draw [x] is accepted exactly when the low 64 bits of [x * bound]
    are at least that threshold, the high 64 bits being returned;
    otherwise the sampler draws again. *)
Theorem rejection_threshold_and_acceptance {R : Type} `{Rng R}
        (fuel : nat) (p : platform) (bits : Z) (rng : R) (bound : Z) :
  0 < bits <= 64 -> 0 < bound < 2 ^ bits ->
  threshold_of bound = 2 ^ 64 mod bound /\
  (p <> Portable -> ~ pow2 bound ->
   0 <= fst (rng_next_u64 rng) < 2 ^ 64 ->
   let x := fst (rng_next_u64 rng) in
   let rng' := snd (rng_next_u64 rng) in
   uniform_bounded (S fuel) p bits rng bound =
   if 2 ^ 64 mod bound <=? (x * bound) mod 2 ^ 64
   then Some ((x * bound) / 2 ^ 64, rng')
   else uniform_bounded fuel p bits rng' bound).
Proof.
  intros Hbits Hbound.
  pose proof (pow2_le_64 bits Hbits) as Hw.
  split.
  - apply threshold_of_spec. lia.
  - intros Hp Hn Hx x rng'. subst x rng'.
    rewrite uniform_bounded_step by lia.
    rewrite outcome_eq by lia.
    destruct (Z.land bound (wrap bits (bound - 1)) =? 0) eqn:Et.
    { exfalso. apply Hn. apply (pow2_test bits bound Hbound). exact Et. }
    rewrite threshold_of_spec, (wrap64_small bound) by lia.
    rewrite loop_body_wide by assumption.
    unfold spec_threshold.
    destruct (_ <=? _); reflexivity.
Qed.

Lemma rejection_threshold_and_acceptance_witness :
  threshold_of 6 = 2 ^ 64 mod 6 /\
  let x := fst (rng_next_u64 xoshiro256ss.default) in
  let rng' := snd (rng_next_u64 xoshiro256ss.default) in
  uniform_bounded 1 Int128 32 xoshiro256ss.default 6 =
  if 2 ^ 64 mod 6 <=? (x * 6) mod 2 ^ 64
  then Some ((x * 6) / 2 ^ 64, rng')
  else uniform_bounded 0 Int128 32 rng' 6.
Proof.
  destruct (rejection_threshold_and_acceptance
              0 Int128 32 xoshiro256ss.default 6 ltac:(lia) ltac:(lia))
    as [Ht Hacc].
  split; [exact Ht|].
  apply Hacc.
  - discriminate.
  - exact not_pow2_6.
  - apply xoshiro256ss_draw_range.
Defined.

(** C5. For a bound > 0 that is a power of two, [uniform_bounded]
    returns the bitwise AND of one draw with [bound - 1] and the
    generator advanced by that one draw; there is no rejection loop
    (the result does not depend on the fuel). *)
Theorem pow2_mask_path {R : Type} `{Rng R}
        (fuel : nat) (p : platform) (bits : Z) (rng : R) (bound : Z) :
  0 < bits <= 64 -> 0 < bound < 2 ^ bits -> pow2 bound ->
  uniform_bounded fuel p bits rng bound =
  Some (Z.land (fst (rng_next_u64 rng)) (bound - 1), snd (rng_next_u64 rng)).
Proof.
  intros Hbits Hbound Hp.
  pose proof (pow2_le_64 bits Hbits) as Hw.
  unfold uniform_bounded.
  destruct (Z.eqb_spec bound 0) as [|_]; [lia|].
  destruct (pow2_test bits bound Hbound) as [_ Ht]. rewrite (Ht Hp).
  destruct (rng_next_u64 rng) as [x rng']. cbn [fst snd].
  rewrite (wrap64_small bound), (wrap64_small (bound - 1)) by lia.
  destruct Hp as (k & Hk & E).
  replace (bound - 1) with (Z.ones k) by (rewrite Z.ones_equiv; lia).
  rewrite Z.land_ones by exact Hk.
  pose proof (Z.mod_pos_bound x (2 ^ k) ltac:(lia)).
  rewrite wrap_small by lia. reflexivity.
Qed.

Lemma pow2_mask_path_witness :
  uniform_bounded 0 Int128 32 xoshiro256ss.default 64 =
  Some (Z.land (fst (rng_next_u64 xoshiro256ss.default)) (64 - 1),
        snd (rng_next_u64 xoshiro256ss.default)).
Proof.
  apply (pow2_mask_path 0 Int128 32 xoshiro256ss.default 64);
    [lia|lia|exists 6; split; [lia|reflexivity]].
Defined.

(** C6. For a bound > 0 that is not a power of two, the portable
    fallback is the one the specification words (accept [x] only if
    [x < floor(2^64/bound) * bound], return [x mod bound]) and gives the
    same distribution as the wide-multiply path: each value below the
    bound is given by as many draws on one path as on the other. *)
Theorem fallback_same_distribution (bits bound v : Z) :
  0 < bits <= 64 -> 0 < bound < 2 ^ bits -> ~ pow2 bound ->
  0 <= v < bound ->
  (forall x, 0 <= x < 2 ^ 64 ->
             outcome Portable bits bound x = spec_fallback bound x) /\
  draws_mapped_to Portable bits bound v = draws_mapped_to Int128 bits bound v /\
  draws_mapped_to Portable bits bound v = draws_mapped_to MsvcX64 bits bound v /\
  count_u64 (fun x => yields (spec_fallback bound x) v)
  = draws_mapped_to Int128 bits bound v.
Proof.
  intros Hbits Hbound Hn Hv.
  pose proof (pow2_le_64 bits Hbits) as Hw.
  assert (Hspec : forall x, 0 <= x < 2 ^ 64 ->
                    outcome Portable bits bound x = spec_fallback bound x).
  { intros x Hx. rewrite outcome_eq by lia.
    destruct (Z.land bound (wrap bits (bound - 1)) =? 0) eqn:Et.
    { exfalso. apply Hn. apply (pow2_test bits bound Hbound). exact Et. }
    rewrite (wrap64_small bound) by lia.
    rewrite loop_body_portable by assumption.
    unfold spec_fallback.
    pose proof (not_pow2_remainder bound ltac:(lia) Hn) as Hr.
    pose proof (Z.div_mod (2 ^ 64) bound ltac:(lia)) as Hd.
    replace ((2 ^ 64 - 1) / bound) with (2 ^ 64 / bound); [reflexivity|].
    apply Z.div_unique with (2 ^ 64 mod bound - 1); lia. }
  split; [exact Hspec|].
  rewrite !draws_mapped_to_value by assumption.
  split; [reflexivity|]. split; [reflexivity|].
  rewrite <- (draws_mapped_to_value Portable bits bound v) by assumption.
  unfold draws_mapped_to. apply count_u64_ext.
  intros x Hx. rewrite Hspec by exact Hx. reflexivity.
Qed.

Lemma fallback_same_distribution_witness :
  draws_mapped_to Portable 32 6 4 = draws_mapped_to Int128 32 6 4.
Proof.
  apply (proj1 (proj2 (fallback_same_distribution 32 6 4
                         ltac:(lia) ltac:(lia) not_pow2_6 ltac:(lia)))).
Defined.

(** C7. For every compile-time bound [N >= 1] (a [std::uint32_t]) and
    every generator state, [one_in_t<N>] returns the same boolean and
    leaves the generator in the same state as the runtime
    [one_in(rng, N)] on a 32-bit bound; the two also agree on whether
    the rejection loop is still running after a given number of draws. *)
Theorem one_in_t_matches_one_in (N : Z) (fuel : nat) (p : platform)
        (rng : xoshiro256ss.t) :
  1 <= N < 2 ^ 32 ->
  one_in_t N fuel p rng = one_in fuel p 32 rng N.
Proof.
  intros HN. unfold one_in_t, one_in.
  rewrite wrap_small by lia.
  destruct (Z.eqb_spec N 1), (Z.leb_spec N 1); try lia; reflexivity.
Qed.

Lemma one_in_t_matches_one_in_witness :
  one_in_t 100 5 Int128 xoshiro256ss.default
  = one_in 5 Int128 32 xoshiro256ss.default 100.
Proof.
  apply (one_in_t_matches_one_in 100 5 Int128 xoshiro256ss.default). lia.
Defined.

(** C8. The seed mixer is a pure, total function of the seed: the state
    [seed_with] leaves does not depend on the state it is called on,
    only on the seed.  Each mixing step adds the fixed odd constant
    0x9E3779B97F4A7C15 to the mixer state, modulo 2^64, and passes the
    sum through three XOR/multiply avalanche rounds: XOR with the word
    shifted right by 30 then multiplication by 0xBF58476D1CE4E5B9, XOR
    with the shift by 27 then multiplication by 0x94D049BB133111EB, and
    XOR with the shift by 31.  The four state words are the outputs of
    four successive steps, that is the rounds applied to
    [seed + k * 0x9E3779B97F4A7C15] modulo 2^64 for k = 1, 2, 3, 4. *)
Theorem seed_mixer_pure :
  (forall g1 g2 seed,
      xoshiro256ss.seed_with g1 seed = xoshiro256ss.seed_with g2 seed) /\
  (splitmix64.GAMMA = 0x9E3779B97F4A7C15 /\
   Z.odd splitmix64.GAMMA = true) /\
  (forall sm,
      let s := (splitmix64.state sm + 0x9E3779B97F4A7C15) mod 2 ^ 64 in
      let z1 := (Z.lxor s (Z.shiftr s 30) * 0xBF58476D1CE4E5B9) mod 2 ^ 64 in
      let z2 := (Z.lxor z1 (Z.shiftr z1 27) * 0x94D049BB133111EB) mod 2 ^ 64 in
      let z3 := Z.lxor z2 (Z.shiftr z2 31) in
      splitmix64.next_u64 sm = (z3, splitmix64.mk s)) /\
  (forall z,
      let z1 := (Z.lxor z (Z.shiftr z 30) * 0xBF58476D1CE4E5B9) mod 2 ^ 64 in
      let z2 := (Z.lxor z1 (Z.shiftr z1 27) * 0x94D049BB133111EB) mod 2 ^ 64 in
      splitmix64.round1 z = z1 /\
      splitmix64.round2 z1 = z2 /\
      splitmix64.round3 z2 = Z.lxor z2 (Z.shiftr z2 31) /\
      splitmix64.mix z = Z.lxor z2 (Z.shiftr z2 31)) /\
  (forall a b,
      0 <= a < 2 ^ 64 -> 0 <= b < 2 ^ 64 ->
      splitmix64.mix a = splitmix64.mix b -> a = b) /\
  (forall seed,
      xoshiro256ss.mixed seed =
      xoshiro256ss.mk
        (splitmix64.mix ((seed + 1 * 0x9E3779B97F4A7C15) mod 2 ^ 64))
        (splitmix64.mix ((seed + 2 * 0x9E3779B97F4A7C15) mod 2 ^ 64))
        (splitmix64.mix ((seed + 3 * 0x9E3779B97F4A7C15) mod 2 ^ 64))
        (splitmix64.mix ((seed + 4 * 0x9E3779B97F4A7C15) mod 2 ^ 64))) /\
  (forall g seed,
      xoshiro256ss.seed_with g seed =
      if xoshiro256ss.all_zero (xoshiro256ss.mixed seed)
      then xoshiro256ss.fallback else xoshiro256ss.mixed seed).
Proof.
  split; [|split; [|split; [|split; [|split; [|split]]]]].
  - intros g1 g2 seed. rewrite !seed_with_mixed. reflexivity.
  - split; reflexivity.
  - intros sm. reflexivity.
  - intros z. cbv zeta. split; [|split; [|split]]; reflexivity.
  - apply mix_inj.
  - intros seed. exact (mixed_words seed).
  - apply seed_with_mixed.
Qed.

Lemma seed_mixer_pure_witness :
  0x123456789ABCDEF0 = 0x123456789ABCDEF0.
Proof.
  apply (proj1 (proj2 (proj2 (proj2 (proj2 seed_mixer_pure))))
           0x123456789ABCDEF0 0x123456789ABCDEF0);
    [lia|lia|reflexivity].
Defined.

(** C9. [uniform_bounded] with [bound == 0] returns 0 and leaves the
    generator untouched: nothing is drawn and nothing fails. *)
Theorem uniform_bounded_zero {R : Type} `{Rng R}
        (fuel : nat) (p : platform) (bits : Z) (rng : R) :
  uniform_bounded fuel p bits rng 0 = Some (0, rng).
Proof. reflexivity. Qed.

(** C10. [uniform_bounded] with [bound == 1] takes the mask path: it
    returns 0 and the generator advanced by exactly one draw, whereas
    [one_in] with bound 1 returns true and the generator as it was. *)
Theorem uniform_bounded_one {R : Type} `{Rng R}
        (fuel : nat) (p : platform) (bits : Z) (rng : R) :
  uniform_bounded fuel p bits rng 1 = Some (0, snd (rng_next_u64 rng)) /\
  one_in fuel p bits rng 1 = Some (true, rng).
Proof.
  split; [|reflexivity].
  unfold uniform_bounded.
  change (1 =? 0) with false. cbv iota.
  change (1 - 1) with 0.
  replace (wrap bits 0) with 0 by (unfold wrap; rewrite Zmod_0_l; reflexivity).
  change (Z.land 1 0 =? 0) with true. cbv iota.
  destruct (rng_next_u64 rng) as [x rng']. cbn [snd].
  change (wrap64 (wrap64 1 - 1)) with 0.
  rewrite Z.land_0_r. unfold wrap. rewrite Zmod_0_l. reflexivity.
Qed.

(* ------------------------------------------------------------------ *)
(** ** Rotations, XOR-shifts and odd multipliers are one-to-one *)

(** The low part shifted up and the high part moved down share no bit. *)
Lemma land_shifted_low (l h k : Z) :
  0 <= k -> 0 <= l -> 0 <= h < 2 ^ k -> Z.land (l * 2 ^ k) h = 0.
Proof.
  intros Hk Hl Hh. apply Z.bits_inj'. intros n Hn.
  rewrite Z.land_spec, Z.bits_0.
  destruct (Z.lt_ge_cases n k) as [Hlt|Hge].
  - rewrite Z.mul_pow2_bits_low by lia. reflexivity.
  - replace (Z.testbit h n) with false; [apply andb_false_r|].
    symmetry. destruct (Z.eq_dec h 0) as [->|Hne]; [apply Z.bits_0|].
    apply Z.bits_above_log2; [lia|].
    apply Z.lt_le_trans with k; [|exact Hge].
    apply Z.log2_lt_pow2; lia.
Qed.

(** A rotation moves the high [k] bits of [x] below its other bits. *)
Lemma rotl64_split (x k : Z) :
  0 < k < 64 -> 0 <= x < 2 ^ 64 ->
  rotl64 x k = (x mod 2 ^ (64 - k)) * 2 ^ k + x / 2 ^ (64 - k).
Proof.
  intros Hk Hx. unfold rotl64.
  assert (Hp : 0 < 2 ^ (64 - k)) by (apply Z.pow_pos_nonneg; lia).
  assert (Hq : 0 < 2 ^ k) by (apply Z.pow_pos_nonneg; lia).
  assert (HM : 2 ^ 64 = 2 ^ (64 - k) * 2 ^ k).
  { rewrite <- Z.pow_add_r by lia. f_equal. lia. }
  pose proof (Z.div_mod x (2 ^ (64 - k)) ltac:(lia)) as Hd.
  pose proof (Z.mod_pos_bound x (2 ^ (64 - k)) Hp) as Hl.
  set (l := x mod 2 ^ (64 - k)) in *. set (h := x / 2 ^ (64 - k)) in *.
  assert (Hh : 0 <= h < 2 ^ k).
  { split; [apply Z.div_pos; lia|].
    apply Z.div_lt_upper_bound; [exact Hp|]. rewrite <- HM. lia. }
  rewrite Z.shiftl_mul_pow2, Z.shiftr_div_pow2 by lia. fold h.
  assert (Hw : wrap64 (x * 2 ^ k) = l * 2 ^ k).
  { unfold wrap64. symmetry. apply Z.mod_unique with h; [nia|].
    rewrite HM. nia. }
  rewrite Hw.
  pose proof (Z.add_lor_land (l * 2 ^ k) h) as Ha.
  rewrite land_shifted_low in Ha by lia. lia.
Qed.

Lemma rotl64_back (x k : Z) :
  0 < k < 64 -> 0 <= x < 2 ^ 64 -> rotl64 (rotl64 x k) (64 - k) = x.
Proof.
  intros Hk Hx.
  pose proof (rotl64_range x k ltac:(lia) Hx) as Hr.
  rewrite (rotl64_split (rotl64 x k) (64 - k)) by lia.
  replace (64 - (64 - k)) with k by lia.
  rewrite (rotl64_split x k) by lia.
  assert (Hp : 0 < 2 ^ (64 - k)) by (apply Z.pow_pos_nonneg; lia).
  assert (Hq : 0 < 2 ^ k) by (apply Z.pow_pos_nonneg; lia).
  assert (HM : 2 ^ 64 = 2 ^ (64 - k) * 2 ^ k).
  { rewrite <- Z.pow_add_r by lia. f_equal. lia. }
  pose proof (Z.div_mod x (2 ^ (64 - k)) ltac:(lia)) as Hd.
  pose proof (Z.mod_pos_bound x (2 ^ (64 - k)) Hp) as Hl.
  set (l := x mod 2 ^ (64 - k)) in *. set (h := x / 2 ^ (64 - k)) in *.
  assert (Hh : 0 <= h < 2 ^ k).
  { split; [apply Z.div_pos; lia|].
    apply Z.div_lt_upper_bound; [exact Hp|]. rewrite <- HM. lia. }
  assert (Hm : (l * 2 ^ k + h) mod 2 ^ k = h).
  { symmetry. apply Z.mod_unique with l; lia. }
  assert (Hdv : (l * 2 ^ k + h) / 2 ^ k = l).
  { symmetry. apply Z.div_unique with h; lia. }
  rewrite Hm, Hdv. lia.
Qed.

Lemma rotl64_inj (x y k : Z) :
  0 < k < 64 -> 0 <= x < 2 ^ 64 -> 0 <= y < 2 ^ 64 ->
  rotl64 x k = rotl64 y k -> x = y.
Proof.
  intros Hk Hx Hy E.
  rewrite <- (rotl64_back x k), <- (rotl64_back y k) by assumption.
  rewrite E. reflexivity.
Qed.

Lemma wrap64_lxor (a b : Z) :
  wrap64 (Z.lxor a b) = Z.lxor (wrap64 a) (wrap64 b).
Proof.
  unfold wrap64. apply Z.bits_inj'. intros n Hn.
  rewrite Z.lxor_spec.
  destruct (Z.lt_ge_cases n 64) as [Hlt|Hge].
  - rewrite !Z.mod_pow2_bits_low by lia. apply Z.lxor_spec.
  - rewrite !Z.mod_pow2_bits_high by lia. reflexivity.
Qed.

(** Equations between XORs of words, settled bit by bit. *)
Ltac xor_bits :=
  apply Z.bits_inj'; intros ?n _;
  repeat match goal with
         | H : @eq Z _ _ |- _ =>
             apply (f_equal (fun z => Z.testbit z n)) in H;
             cbv beta in H; rewrite ?Z.lxor_spec in H; revert H
         end;
  rewrite ?Z.lxor_spec;
  repeat match goal with
         | |- context [Z.testbit ?z n] => destruct (Z.testbit z n)
         end;
  cbn; intros; congruence.

Lemma wrap64_add_cancel (a b c : Z) :
  wrap64 (a + c) = wrap64 (b + c) -> wrap64 a = wrap64 b.
Proof.
  unfold wrap64. intros E.
  pose proof (Z.div_mod (a + c) (2 ^ 64) ltac:(lia)) as Ha.
  pose proof (Z.div_mod (b + c) (2 ^ 64) ltac:(lia)) as Hb.
  rewrite E in Ha.
  replace a with (b + ((a + c) / 2 ^ 64 - (b + c) / 2 ^ 64) * 2 ^ 64) by lia.
  apply Z.mod_add. lia.
Qed.

(* ------------------------------------------------------------------ *)
(** ** More properties of the seeding generator *)

Lemma splitmix64_state_after (n : nat) (sm : splitmix64.t) :
  wrap64 (splitmix64.state (splitmix64_advance n sm))
  = wrap64 (splitmix64.state sm + Z.of_nat n * splitmix64.GAMMA).
Proof.
  revert sm. induction n as [|n IH]; intros sm.
  - cbn [splitmix64_advance]. f_equal. lia.
  - cbn [splitmix64_advance]. rewrite IH.
    unfold splitmix64.next_u64. cbn [snd splitmix64.state].
    unfold wrap64. rewrite Z.add_mod_idemp_l by lia. f_equal. lia.
Qed.

Lemma splitmix64_output_after (n : nat) (sm : splitmix64.t) :
  fst (splitmix64.next_u64 (splitmix64_advance n sm))
  = splitmix64.mix
      (wrap64 (splitmix64.state sm + (Z.of_nat n + 1) * splitmix64.GAMMA)).
Proof.
  unfold splitmix64.next_u64. cbn [fst]. fold (splitmix64.mix
    (wrap64 (splitmix64.state (splitmix64_advance n sm) + splitmix64.GAMMA))).
  f_equal. pose proof (splitmix64_state_after n sm) as Hs.
  unfold wrap64 in *. rewrite <- Z.add_mod_idemp_l, Hs by lia.
  rewrite Z.add_mod_idemp_l by lia. f_equal. lia.
Qed.

(** Adding multiples of the odd constant [GAMMA] is one-to-one modulo
    [2^64]. *)
Lemma gamma_steps (s i j : Z) :
  wrap64 (s + i * splitmix64.GAMMA) = wrap64 (s + j * splitmix64.GAMMA)
  <-> i mod 2 ^ 64 = j mod 2 ^ 64.
Proof.
  unfold wrap64. split; intros E.
  - assert (D : (2 ^ 64 | splitmix64.GAMMA * (i - j))).
    { exists ((s + i * splitmix64.GAMMA) / 2 ^ 64
              - (s + j * splitmix64.GAMMA) / 2 ^ 64).
      pose proof (Z.div_mod (s + i * splitmix64.GAMMA) (2 ^ 64) ltac:(lia)).
      pose proof (Z.div_mod (s + j * splitmix64.GAMMA) (2 ^ 64) ltac:(lia)).
      lia. }
    apply Z.gauss in D; [|reflexivity].
    destruct D as [q Hq]. replace i with (j + q * 2 ^ 64) by lia.
    apply Z.mod_add. lia.
  - rewrite <- (Z.add_mod_idemp_r s (i * _)), <- (Z.add_mod_idemp_r s (j * _))
      by lia.
    rewrite <- (Z.mul_mod_idemp_l i), <- (Z.mul_mod_idemp_l j), E by lia.
    reflexivity.
Qed.

(* ------------------------------------------------------------------ *)
(** ** Further properties of the generators *)

(** X1. A left rotation by [k] is undone by the left rotation by
    [64 - k]: [rotl64] is a one-to-one map of the 64-bit words onto
    themselves. *)
Theorem rotl64_inverse (x k : Z) :
  0 < k < 64 -> 0 <= x < 2 ^ 64 ->
  0 <= rotl64 x k < 2 ^ 64 /\ rotl64 (rotl64 x k) (64 - k) = x.
Proof.
  intros Hk Hx. split.
  - apply rotl64_range; lia.
  - apply rotl64_back; assumption.
Qed.

Lemma rotl64_inverse_witness :
  0 <= rotl64 0x123456789ABCDEF0 45 < 2 ^ 64 /\
  rotl64 (rotl64 0x123456789ABCDEF0 45) (64 - 45) = 0x123456789ABCDEF0.
Proof. apply (rotl64_inverse 0x123456789ABCDEF0 45); lia. Defined.

(** X2. The seeding generator has period exactly 2^64: the outputs of
    its calls number [i] and [j] are equal if and only if [i] and [j]
    are congruent modulo 2^64.  In particular no output repeats within
    2^64 successive calls. *)
Theorem splitmix64_period (sm : splitmix64.t) (i j : nat) :
  fst (splitmix64.next_u64 (splitmix64_advance i sm))
  = fst (splitmix64.next_u64 (splitmix64_advance j sm))
  <-> Z.of_nat i mod 2 ^ 64 = Z.of_nat j mod 2 ^ 64.
Proof.
  rewrite !splitmix64_output_after. split.
  - intros E. apply mix_inj in E; try apply wrap64_range.
    apply gamma_steps in E. apply (wrap64_add_cancel _ _ 1). exact E.
  - intros E. f_equal. apply gamma_steps.
    rewrite <- (Z.add_mod_idemp_l (Z.of_nat i)),
      <- (Z.add_mod_idemp_l (Z.of_nat j)), E by lia.
    reflexivity.
Qed.

(** X3. [seed_with] never needs its fallback: the state it leaves is
    always the four mixer words; and two seeds leave the same state
    exactly when they are the same 64-bit word. *)
Theorem seed_with_one_to_one (g1 g2 : xoshiro256ss.t) (seed1 seed2 : Z) :
  xoshiro256ss.seed_with g1 seed1 = xoshiro256ss.mixed seed1 /\
  (xoshiro256ss.seed_with g1 seed1 = xoshiro256ss.seed_with g2 seed2
   <-> wrap64 seed1 = wrap64 seed2).
Proof.
  assert (Hm : forall g s, xoshiro256ss.seed_with g s = xoshiro256ss.mixed s).
  { intros g s. rewrite seed_with_mixed, mixed_nonzero. reflexivity. }
  split; [apply Hm|].
  rewrite !Hm, !mixed_words. split.
  - intros E. injection E as E _ _ _.
    apply mix_inj in E; try apply wrap64_range.
    apply wrap64_add_cancel in E. exact E.
  - intros E. unfold wrap64 in *.
    assert (Hk : forall k,
               (seed1 + k * splitmix64.GAMMA) mod 2 ^ 64
               = (seed2 + k * splitmix64.GAMMA) mod 2 ^ 64).
    { intros k. rewrite <- (Z.add_mod_idemp_l seed1),
        <- (Z.add_mod_idemp_l seed2), E by lia. reflexivity. }
    rewrite !Hk. reflexivity.
Qed.

(** X4. The state update of [next_u64] is one-to-one: two different
    states never step to the same state, so the stream cannot merge
    with another one. *)
Theorem next_u64_state_one_to_one (g1 g2 : xoshiro256ss.t) :
  xoshiro256ss.wf g1 -> xoshiro256ss.wf g2 ->
  snd (xoshiro256ss.next_u64 g1) = snd (xoshiro256ss.next_u64 g2) ->
  g1 = g2.
Proof.
  destruct g1 as [a b c d], g2 as [a' b' c' d'].
  unfold xoshiro256ss.wf, xoshiro256ss.next_u64.
  cbn [snd xoshiro256ss.s0 xoshiro256ss.s1 xoshiro256ss.s2 xoshiro256ss.s3].
  intros (Ha & Hb & Hc & Hd) (Ha' & Hb' & Hc' & Hd') E.
  remember (wrap64 (Z.shiftl b 17)) as t eqn:Ht.
  remember (wrap64 (Z.shiftl b' 17)) as t' eqn:Ht'.
  injection E as E0 E1 E2 E3.
  apply rotl64_inj in E3; [|lia|apply lxor_range; lia|apply lxor_range; lia].
  assert (Ea : a = a') by (clear Ht Ht' E1 E2; xor_bits). subst a'.
  assert (Ebc : Z.lxor c c' = Z.lxor b b')
    by (clear Ht Ht' E0 E2 E3; xor_bits).
  assert (Et : Z.lxor t t' = Z.lxor c c')
    by (clear Ht Ht' E0 E1 E3 Ebc; xor_bits).
  subst t t'.
  rewrite <- wrap64_lxor, <- Z.shiftl_lxor, Ebc in Et.
  symmetry in Et. apply shl17_fixed in Et; [|apply lxor_range; lia].
  apply Z.lxor_eq in Et. subst b'.
  rewrite Z.lxor_nilpotent in Ebc. apply Z.lxor_eq in Ebc. subst c'.
  assert (Ed : d = d') by (clear E0 E1 E2 Hb; xor_bits). subst d'.
  reflexivity.
Qed.

Lemma next_u64_state_one_to_one_witness :
  xoshiro256ss.default = xoshiro256ss.default.
Proof.
  apply (next_u64_state_one_to_one xoshiro256ss.default xoshiro256ss.default).
  - unfold xoshiro256ss.wf. cbn. lia.
  - unfold xoshiro256ss.wf. cbn. lia.
  - reflexivity.
Defined.

(** X5. The word returned by [next_u64] is a one-to-one function of the
    cell [s[1]]: two states give the same output exactly when their
    cells [s[1]] are equal, and the output is always a 64-bit word. *)
Theorem next_u64_output_one_to_one (g1 g2 : xoshiro256ss.t) :
  xoshiro256ss.wf g1 -> xoshiro256ss.wf g2 ->
  0 <= fst (xoshiro256ss.next_u64 g1) < 2 ^ 64 /\
  (fst (xoshiro256ss.next_u64 g1) = fst (xoshiro256ss.next_u64 g2)
   <-> xoshiro256ss.s1 g1 = xoshiro256ss.s1 g2).
Proof.
  intros (_ & Hb & _) (_ & Hb' & _).
  unfold xoshiro256ss.next_u64. cbn [fst].
  split; [apply wrap64_range|]. split.
  - intros E.
    apply odd_mul_inj in E;
      [|reflexivity
       |apply rotl64_range; [lia|apply wrap64_range]
       |apply rotl64_range; [lia|apply wrap64_range]].
    apply rotl64_inj in E; [|lia|apply wrap64_range|apply wrap64_range].
    apply odd_mul_inj in E; [exact E|reflexivity|lia|lia].
  - intros ->. reflexivity.
Qed.

Lemma next_u64_output_one_to_one_witness :
  0 <= fst (xoshiro256ss.next_u64 xoshiro256ss.default) < 2 ^ 64.
Proof.
  apply (next_u64_output_one_to_one xoshiro256ss.default xoshiro256ss.fallback).
  - unfold xoshiro256ss.wf. cbn. lia.
  - unfold xoshiro256ss.wf. cbn. lia.
Defined.

(** X6. [next_u32] advances the state exactly as [next_u64] does and
    returns the upper half of that draw: a word below 2^32, the cast to
    [std::uint32_t] dropping nothing. *)
Theorem next_u32_upper_half (g : xoshiro256ss.t) :
  snd (xoshiro256ss.next_u32 g) = snd (xoshiro256ss.next_u64 g) /\
  fst (xoshiro256ss.next_u32 g) = fst (xoshiro256ss.next_u64 g) / 2 ^ 32 /\
  0 <= fst (xoshiro256ss.next_u32 g) < 2 ^ 32 /\
  fst (xoshiro256ss.next_u64 g)
  = fst (xoshiro256ss.next_u32 g) * 2 ^ 32
    + fst (xoshiro256ss.next_u64 g) mod 2 ^ 32.
Proof.
  unfold xoshiro256ss.next_u32.
  pose proof (xoshiro256ss_draw_range g) as Hx. cbn [rng_next_u64
    xoshiro256ss_Rng] in Hx.
  destruct (xoshiro256ss.next_u64 g) as [x g']. cbn [fst snd] in *.
  rewrite Z.shiftr_div_pow2 by lia.
  assert (Hh : 0 <= x / 2 ^ 32 < 2 ^ 32).
  { split; [apply Z.div_pos; lia|apply Z.div_lt_upper_bound; lia]. }
  rewrite wrap_small by exact Hh.
  pose proof (Z.div_mod x (2 ^ 32) ltac:(lia)).
  repeat split; lia.
Qed.

(* ------------------------------------------------------------------ *)
(** ** Further properties of the bounded sampler *)

(** The two wide-multiply bodies compute the same thing on every input. *)
Lemma loop_body_int128_msvc (bits b t x : Z) :
  loop_body Int128 bits b t x = loop_body MsvcX64 bits b t x.
Proof.
  unfold loop_body, umul128.
  assert (Hm : 0 <= wrap128 (x * b) < 2 ^ 128)
    by (unfold wrap128; apply Z.mod_pos_bound; lia).
  assert (Hlo : wrap64 (wrap128 (x * b)) = wrap64 (x * b)).
  { unfold wrap64, wrap128.
    pose proof (Z.div_mod (x * b) (2 ^ 128) ltac:(lia)) as Hd.
    replace (x * b) with
      ((x * b) mod 2 ^ 128 + ((x * b) / 2 ^ 128 * 2 ^ 64) * 2 ^ 64) at 2
      by (change (2 ^ 128) with (2 ^ 64 * 2 ^ 64) in *; lia).
    rewrite Z.mod_add by lia. reflexivity. }
  assert (Hhi : wrap64 (Z.shiftr (wrap128 (x * b)) 64)
                = Z.shiftr (wrap128 (x * b)) 64).
  { apply wrap64_small. rewrite Z.shiftr_div_pow2 by lia. split.
    - apply Z.div_pos; lia.
    - apply Z.div_lt_upper_bound; [lia|].
      change (2 ^ 64 * 2 ^ 64) with (2 ^ 128). lia. }
  rewrite Hlo, Hhi. reflexivity.
Qed.

(** For a power of two the sampler masks one draw, whatever the fuel. *)
Lemma uniform_bounded_pow2 {R : Type} `{Rng R}
      (fuel : nat) (p : platform) (bits : Z) (rng : R) (bound : Z) :
  0 < bits <= 64 -> 0 < bound < 2 ^ bits -> pow2 bound ->
  uniform_bounded fuel p bits rng bound =
  Some (fst (rng_next_u64 rng) mod bound, snd (rng_next_u64 rng)).
Proof.
  intros Hbits Hbound Hp.
  pose proof (pow2_le_64 bits Hbits) as Hw.
  unfold uniform_bounded.
  destruct (Z.eqb_spec bound 0) as [|_]; [lia|].
  destruct (pow2_test bits bound Hbound) as [_ Ht]. rewrite (Ht Hp).
  destruct (rng_next_u64 rng) as [x rng']. cbn [fst snd].
  rewrite (wrap64_small bound), (wrap64_small (bound - 1)) by lia.
  destruct Hp as (k & Hk & E).
  replace (bound - 1) with (Z.ones k) by (rewrite Z.ones_equiv; lia).
  rewrite Z.land_ones, <- E by exact Hk.
  pose proof (Z.mod_pos_bound x bound ltac:(lia)).
  rewrite wrap_small by lia. reflexivity.
Qed.

(** A rejected draw means the bound is on the rejection path, where the
    sampler without fuel has returned nothing. *)
Lemma rejected_no_fuel {R : Type} `{Rng R}
      (p : platform) (bits : Z) (rng : R) (bound x : Z) :
  bound <> 0 -> outcome p bits bound x = None ->
  uniform_bounded 0 p bits rng bound = None.
Proof.
  intros Hb. rewrite outcome_eq by exact Hb. unfold uniform_bounded.
  destruct (Z.eqb_spec bound 0) as [|_]; [contradiction|].
  destruct (Z.land bound (wrap bits (bound - 1)) =? 0);
    [discriminate|reflexivity].
Qed.

(** The draw number [i] of a stream. *)
Lemma advance_succ (k : nat) (g : xoshiro256ss.t) :
  xoshiro256ss.advance (S k) g
  = snd (xoshiro256ss.next_u64 (xoshiro256ss.advance k g)).
Proof.
  revert g. induction k as [|k IH]; intros g; [reflexivity|].
  change (xoshiro256ss.advance (S (S k)) g)
    with (xoshiro256ss.advance (S k) (snd (xoshiro256ss.next_u64 g))).
  rewrite IH. reflexivity.
Qed.

(** The sampler returns the first accepted draw, and the generator as it
    is just after that draw. *)
Lemma uniform_bounded_trace (fuel : nat) (p : platform) (bits bound : Z)
      (g g' : xoshiro256ss.t) (v : Z) :
  bound <> 0 ->
  uniform_bounded (S fuel) p bits g bound = Some (v, g') <->
  exists k : nat,
    (k <= fuel)%nat /\
    (forall i : nat, (i < k)%nat ->
       outcome p bits bound
               (fst (xoshiro256ss.next_u64 (xoshiro256ss.advance i g))) = None) /\
    outcome p bits bound
            (fst (xoshiro256ss.next_u64 (xoshiro256ss.advance k g))) = Some v /\
    g' = xoshiro256ss.advance (S k) g.
Proof.
  intros Hb. revert g. induction fuel as [|fuel IH]; intros g.
  - rewrite uniform_bounded_step by exact Hb.
    cbn [rng_next_u64 xoshiro256ss_Rng]. split.
    + intros E. exists 0%nat.
      destruct (outcome p bits bound (fst (xoshiro256ss.next_u64 g))) eqn:Eo.
      * injection E as -> <-. repeat split; [lia|intros i Hi; lia|exact Eo].
      * rewrite (rejected_no_fuel p bits _ bound _ Hb Eo) in E. discriminate.
    + intros (k & Hk & _ & Eo & ->).
      assert (k = 0)%nat by lia. subst k. cbn [xoshiro256ss.advance] in *.
      rewrite Eo. reflexivity.
  - rewrite uniform_bounded_step by exact Hb.
    cbn [rng_next_u64 xoshiro256ss_Rng]. split.
    + intros E.
      destruct (outcome p bits bound (fst (xoshiro256ss.next_u64 g))) eqn:Eo.
      * injection E as -> <-. exists 0%nat.
        repeat split; [lia|intros i Hi; lia|exact Eo].
      * apply IH in E. destruct E as (k & Hk & Hrej & Hacc & ->).
        exists (S k). repeat split; [lia| |exact Hacc].
        intros [|i] Hi; [exact Eo|]. apply (Hrej i). lia.
    + intros (k & Hk & Hrej & Hacc & ->).
      destruct k as [|k].
      * cbn [xoshiro256ss.advance] in *. rewrite Hacc. reflexivity.
      * pose proof (Hrej 0%nat ltac:(lia)) as H0.
        cbn [xoshiro256ss.advance] in H0. rewrite H0. apply IH.
        exists k. repeat split; [lia| |exact Hacc].
        intros i Hi. apply (Hrej (S i)). lia.
Qed.

(** Sums over the values below a bound. *)
Lemma sum_below_ext (g h : Z -> Z) (m : nat) :
  (forall v, 0 <= v < Z.of_nat m -> g v = h v) ->
  sum_below g m = sum_below h m.
Proof.
  induction m as [|m IH]; intros Hgh; cbn [sum_below]; [reflexivity|].
  rewrite IH by (intros v Hv; apply Hgh; lia).
  rewrite Hgh by lia. reflexivity.
Qed.

Lemma sum_below_const (q : Z) (m : nat) :
  sum_below (fun _ => q) m = Z.of_nat m * q.
Proof.
  induction m as [|m IH]; cbn [sum_below]; [lia|]. rewrite IH. lia.
Qed.

Lemma sum_below_add (g h : Z -> Z) (m : nat) :
  sum_below (fun v => g v + h v) m = sum_below g m + sum_below h m.
Proof.
  induction m as [|m IH]; cbn [sum_below]; [lia|]. rewrite IH. lia.
Qed.

(** An outcome is counted once among the values below [m], and only if
    it is an accepted one below [m]. *)
Lemma sum_below_yields (o : option Z) (m : nat) :
  (forall r, o = Some r -> 0 <= r < Z.of_nat m) ->
  sum_below (fun v => if yields o v then 1 else 0) m
  = if accepted o then 1 else 0.
Proof.
  destruct o as [r|]; cbn [yields accepted]; intros Hr.
  - specialize (Hr r eq_refl).
    assert (G : forall k : nat,
               sum_below (fun v => if r =? v then 1 else 0) k
               = if r <? Z.of_nat k then 1 else 0).
    { induction k as [|k IH]; cbn [sum_below].
      - destruct (Z.ltb_spec r (Z.of_nat 0)); lia.
      - rewrite IH.
        destruct (Z.ltb_spec r (Z.of_nat k)), (Z.eqb_spec r (Z.of_nat k)),
          (Z.ltb_spec r (Z.of_nat (S k))); lia. }
    rewrite G. destruct (Z.ltb_spec r (Z.of_nat m)); lia.
  - rewrite sum_below_const. lia.
Qed.

(** The accepted draws are those mapped to some value below [m]. *)
Lemma count_accepted_sum (f : Z -> option Z) (n m : nat) :
  (forall x r, 0 <= x < Z.of_nat n -> f x = Some r -> 0 <= r < Z.of_nat m) ->
  count_below (fun x => accepted (f x)) n
  = sum_below (fun v => count_below (fun x => yields (f x) v) n) m.
Proof.
  induction n as [|n IH]; intros Hf; cbn [count_below].
  - rewrite sum_below_const. lia.
  - rewrite sum_below_add, <- IH by (intros x r Hx; apply Hf; lia).
    rewrite sum_below_yields by (intros r; apply Hf; lia).
    reflexivity.
Qed.

(** A count splits along a second predicate. *)
Lemma count_below_split (P Q : Z -> bool) (n : nat) :
  count_below P n
  = count_below (fun x => P x && Q x) n
    + count_below (fun x => P x && negb (Q x)) n.
Proof.
  induction n as [|n IH]; cbn [count_below]; [reflexivity|].
  rewrite IH. destruct (P (Z.of_nat n)), (Q (Z.of_nat n)); cbn; lia.
Qed.

Lemma count_u64_eq (P : Z -> bool) :
  count_u64 P = count_below P (Z.to_nat (2 ^ 64)).
Proof. unfold count_u64. reflexivity. Qed.

Lemma count_u64_accepted (f : Z -> option Z) (b q : Z) :
  0 <= b ->
  (forall x r, 0 <= x < 2 ^ 64 -> f x = Some r -> 0 <= r < b) ->
  (forall v, 0 <= v < b -> count_u64 (fun x => yields (f x) v) = q) ->
  count_u64 (fun x => accepted (f x)) = b * q.
Proof.
  intros Hb Hr Hq. rewrite count_u64_eq.
  rewrite (count_accepted_sum _ _ (Z.to_nat b)).
  - rewrite (sum_below_ext _ (fun _ => q)).
    + rewrite sum_below_const, Z2Nat.id by lia. reflexivity.
    + intros v Hv. rewrite Z2Nat.id in Hv by lia.
      rewrite <- count_u64_eq. apply Hq. exact Hv.
  - intros x r Hx Ho. rewrite Z2Nat.id in Hx by lia.
    rewrite Z2Nat.id by lia. apply (Hr x r); assumption.
Qed.

Lemma draws_mapped_to_eq (p : platform) (bits bound v : Z) :
  draws_mapped_to p bits bound v
  = count_u64 (fun x => yields (outcome p bits bound x) v).
Proof. unfold draws_mapped_to. reflexivity. Qed.

Lemma draws_accepted_value (p : platform) (bits bound : Z) :
  0 < bits <= 64 -> 0 < bound < 2 ^ bits ->
  draws_accepted p bits bound = bound * (2 ^ 64 / bound).
Proof.
  intros Hbits Hbound. unfold draws_accepted.
  apply (count_u64_accepted (outcome p bits bound)); [lia| |].
  - intros x r. apply outcome_range; assumption.
  - intros v Hv. rewrite <- draws_mapped_to_eq.
    apply draws_mapped_to_value; assumption.
Qed.

Lemma count_u64_all : count_u64 (fun _ => true) = 2 ^ 64.
Proof.
  rewrite (count_u64_ext _ (fun x => (0 <=? x) && (x <? 2 ^ 64))).
  - rewrite count_u64_interval by lia. lia.
  - intros x Hx.
    destruct (Z.leb_spec 0 x), (Z.ltb_spec x (2 ^ 64)); cbn; lia || reflexivity.
Qed.

Lemma count_u64_none : count_u64 (fun _ => false) = 0.
Proof.
  rewrite (count_u64_ext _ (fun x => (0 <=? x) && (x <? 0))).
  - rewrite count_u64_interval by lia. lia.
  - intros x Hx.
    destruct (Z.leb_spec 0 x), (Z.ltb_spec x 0); cbn; lia || reflexivity.
Qed.

Lemma count_u64_split (P Q : Z -> bool) :
  count_u64 P
  = count_u64 (fun x => P x && Q x) + count_u64 (fun x => P x && negb (Q x)).
Proof. rewrite !count_u64_eq. apply count_below_split. Qed.

(** What [one_in] answers on one draw, from what the sampler makes of it. *)
Lemma one_in_outcome_eq (p : platform) (bits bound x : Z) :
  one_in_outcome p bits bound x =
  if bound <=? 1 then Some true
  else option_map (fun v => v =? 0) (outcome p bits bound x).
Proof.
  unfold one_in_outcome, one_in, outcome.
  destruct (bound <=? 1); [reflexivity|].
  destruct (uniform_bounded 1 p bits (Fixed x) bound) as [[v r]|];
    reflexivity.
Qed.

(** On the rejection path the sampler without fuel returns nothing. *)
Lemma uniform_bounded_no_fuel {R : Type} `{Rng R}
      (p : platform) (bits : Z) (rng : R) (bound : Z) :
  0 < bound < 2 ^ bits -> ~ pow2 bound ->
  uniform_bounded 0 p bits rng bound = None.
Proof.
  intros Hbound Hn. unfold uniform_bounded.
  destruct (Z.eqb_spec bound 0) as [|_]; [lia|].
  destruct (Z.land bound (wrap bits (bound - 1)) =? 0) eqn:Et; [|reflexivity].
  exfalso. apply Hn. apply (pow2_test bits bound Hbound). exact Et.
Qed.

(** What the sampler makes of a draw does not depend on the width of
    [UInt], as long as the bound fits. *)
Lemma outcome_width (p : platform) (bits1 bits2 bound x : Z) :
  0 < bits1 <= 64 -> 0 < bits2 <= 64 ->
  0 < bound < 2 ^ bits1 -> bound < 2 ^ bits2 -> 0 <= x < 2 ^ 64 ->
  outcome p bits1 bound x = outcome p bits2 bound x.
Proof.
  intros H1 H2 Hb1 Hb2 Hx.
  assert (Hb2' : 0 < bound < 2 ^ bits2) by lia.
  pose proof (pow2_le_64 bits1 H1). pose proof (pow2_le_64 bits2 H2).
  rewrite !outcome_eq by lia.
  rewrite !(wrap_small _ (bound - 1)) by lia.
  destruct (Z.land bound (bound - 1) =? 0) eqn:Et.
  - assert (Hp : pow2 bound).
    { apply (pow2_test bits1 bound Hb1). rewrite wrap_small by lia. exact Et. }
    destruct Hp as (k & Hk & E).
    rewrite (wrap64_small bound), (wrap64_small (bound - 1)) by lia.
    replace (bound - 1) with (Z.ones k) by (rewrite Z.ones_equiv; lia).
    rewrite Z.land_ones, <- E by exact Hk.
    pose proof (Z.mod_pos_bound x bound ltac:(lia)).
    rewrite !wrap_small by lia. reflexivity.
  - rewrite (wrap64_small bound) by lia.
    destruct p.
    + rewrite !loop_body_wide by (discriminate || assumption). reflexivity.
    + rewrite !loop_body_wide by (discriminate || assumption). reflexivity.
    + rewrite !loop_body_portable by assumption. reflexivity.
Qed.

Lemma draws_accepted_eq (p : platform) (bits bound : Z) :
  draws_accepted p bits bound
  = count_u64 (fun x => accepted (outcome p bits bound x)).
Proof. unfold draws_accepted. reflexivity. Qed.

Lemma draws_answering_eq (p : platform) (bits bound : Z) (a : bool) :
  draws_answering p bits bound a
  = count_u64 (fun x => match one_in_outcome p bits bound x with
                        | Some r => Bool.eqb r a
                        | None => false
                        end).
Proof. unfold draws_answering. reflexivity. Qed.

(** X7. Whenever [uniform_bounded] returns on a bound > 0, the value is
    below the bound, and the generator has been advanced by at least
    one draw and by no more draws than the loop made iterations. *)
Theorem uniform_bounded_below_bound (fuel : nat) (p : platform) (bits : Z)
        (g g' : xoshiro256ss.t) (bound v : Z) :
  0 < bits <= 64 -> 0 < bound < 2 ^ bits ->
  uniform_bounded fuel p bits g bound = Some (v, g') ->
  0 <= v < bound /\
  exists k : nat, (1 <= k <= Nat.max 1 fuel)%nat /\
                  g' = xoshiro256ss.advance k g.
Proof.
  intros Hbits Hbound E.
  assert (E' : uniform_bounded (S (Nat.pred (Nat.max 1 fuel))) p bits g bound
               = Some (v, g')).
  { destruct fuel as [|fuel]; [apply uniform_bounded_fuel|]; exact E. }
  apply uniform_bounded_trace in E'; [|lia].
  destruct E' as (k & Hk & _ & Hacc & ->).
  split.
  - apply (outcome_range p bits bound _ v Hbits Hbound) in Hacc; [exact Hacc|].
    apply xoshiro256ss_draw_range.
  - exists (S k). split; [lia|reflexivity].
Qed.

Lemma uniform_bounded_below_bound_witness :
  0 <= 67 < 100 /\
  exists k : nat,
    (1 <= k <= Nat.max 1 3)%nat /\
    xoshiro256ss.advance 1 (xoshiro256ss.make 1337)
    = xoshiro256ss.advance k (xoshiro256ss.make 1337).
Proof.
  apply (uniform_bounded_below_bound 3 Int128 32 (xoshiro256ss.make 1337)
           (xoshiro256ss.advance 1 (xoshiro256ss.make 1337)) 100 67);
    [lia|lia|vm_compute; reflexivity].
Defined.

(** X8. [uniform_bounded] returns the first draw that is not rejected:
    with room for [fuel + 1] iterations it returns [v] and the state
    [g'] exactly when some draw number [k <= fuel] is accepted and
    mapped to [v], every earlier draw is rejected, and [g'] is the state
    just after draw [k].  So it returns as soon as the loop may run
    past the first accepted draw, having consumed [k + 1] draws. *)
Theorem uniform_bounded_first_accepted (fuel : nat) (p : platform)
        (bits bound : Z) (g g' : xoshiro256ss.t) (v : Z) :
  bound <> 0 ->
  uniform_bounded (S fuel) p bits g bound = Some (v, g') <->
  exists k : nat,
    (k <= fuel)%nat /\
    (forall i : nat, (i < k)%nat ->
       outcome p bits bound
               (fst (xoshiro256ss.next_u64 (xoshiro256ss.advance i g))) = None) /\
    outcome p bits bound
            (fst (xoshiro256ss.next_u64 (xoshiro256ss.advance k g))) = Some v /\
    g' = xoshiro256ss.advance (S k) g.
Proof. apply uniform_bounded_trace. Qed.

Lemma uniform_bounded_first_accepted_witness :
  uniform_bounded 2 Int128 64 (xoshiro256ss.make 1) (2 ^ 63 + 1)
  = Some (4800180567299270261,
          xoshiro256ss.advance 2 (xoshiro256ss.make 1)).
Proof.
  apply (proj2 (uniform_bounded_first_accepted 1 Int128 64 (2 ^ 63 + 1)
                  (xoshiro256ss.make 1)
                  (xoshiro256ss.advance 2 (xoshiro256ss.make 1))
                  4800180567299270261 ltac:(lia))).
  exists 1%nat. split; [lia|]. split; [|split].
  - intros [|i] Hi; [vm_compute; reflexivity|lia].
  - vm_compute. reflexivity.
  - reflexivity.
Defined.

(** X9. Of the 2^64 possible draws, [uniform_bounded] rejects exactly
    [2^64 mod bound], which is fewer than [bound]; for a power of two
    it rejects none. *)
Theorem rejected_draws_few (p : platform) (bits bound : Z) :
  0 < bits <= 64 -> 0 < bound < 2 ^ bits ->
  draws_accepted p bits bound = 2 ^ 64 - 2 ^ 64 mod bound /\
  2 ^ 64 - bound < draws_accepted p bits bound <= 2 ^ 64 /\
  (pow2 bound -> draws_accepted p bits bound = 2 ^ 64).
Proof.
  intros Hbits Hbound.
  pose proof (pow2_le_64 bits Hbits) as Hw.
  rewrite draws_accepted_value by assumption.
  pose proof (Z.div_mod (2 ^ 64) bound ltac:(lia)) as Hd.
  pose proof (Z.mod_pos_bound (2 ^ 64) bound ltac:(lia)) as Hr.
  split; [lia|]. split; [lia|].
  intros Hp. rewrite (pow2_divides bound 64 Hp) in Hd by lia. lia.
Qed.

Lemma rejected_draws_few_witness :
  draws_accepted Int128 32 6 = 2 ^ 64 - 2 ^ 64 mod 6.
Proof.
  apply (proj1 (rejected_draws_few Int128 32 6 ltac:(lia) ltac:(lia))).
Defined.

(** X10. [one_in] has exactly the odds 1 in [bound]: for a bound > 1,
    of the draws it does not reject, [2^64 / bound] answer true and
    [bound - 1] times as many answer false; for a bound <= 1 every draw
    answers true. *)
Theorem one_in_exact_odds (p : platform) (bits bound : Z) :
  0 < bits <= 64 ->
  (1 < bound < 2 ^ bits ->
   draws_answering p bits bound true = 2 ^ 64 / bound /\
   draws_answering p bits bound false = (bound - 1) * (2 ^ 64 / bound) /\
   0 < 2 ^ 64 / bound) /\
  (bound <= 1 ->
   draws_answering p bits bound true = 2 ^ 64 /\
   draws_answering p bits bound false = 0).
Proof.
  intros Hbits. split.
  - intros Hbound.
    assert (Hb : 0 < bound < 2 ^ bits) by lia.
    pose proof (draws_mapped_to_value p bits bound 0 Hbits Hb ltac:(lia))
      as Hq.
    rewrite draws_mapped_to_eq in Hq.
    assert (Ht : draws_answering p bits bound true = 2 ^ 64 / bound).
    { rewrite draws_answering_eq, <- Hq.
      apply count_u64_ext. intros x _. rewrite one_in_outcome_eq.
      destruct (Z.leb_spec bound 1); [lia|].
      destruct (outcome p bits bound x) as [r|]; [|reflexivity].
      cbn. destruct (r =? 0); reflexivity. }
    split; [exact Ht|]. split; [|eapply quotient_positive; eassumption].
    pose proof (draws_accepted_value p bits bound Hbits Hb) as Ha.
    rewrite draws_accepted_eq in Ha.
    rewrite (count_u64_split _ (fun x => yields (outcome p bits bound x) 0))
      in Ha.
    rewrite (count_u64_ext
               (fun x => accepted (outcome p bits bound x)
                         && yields (outcome p bits bound x) 0)
               (fun x => yields (outcome p bits bound x) 0)) in Ha
      by (intros x _; destruct (outcome p bits bound x); reflexivity).
    rewrite Hq in Ha.
    assert (Hf : draws_answering p bits bound false
                 = count_u64 (fun x => accepted (outcome p bits bound x)
                                && negb (yields (outcome p bits bound x) 0))).
    { rewrite draws_answering_eq. apply count_u64_ext. intros x _.
      rewrite one_in_outcome_eq.
      destruct (Z.leb_spec bound 1); [lia|].
      destruct (outcome p bits bound x) as [r|]; [|reflexivity].
      cbn. destruct (r =? 0); reflexivity. }
    rewrite Hf. lia.
  - intros Hbound. rewrite !draws_answering_eq. split.
    + etransitivity; [|apply count_u64_all].
      apply count_u64_ext. intros x _. rewrite one_in_outcome_eq.
      destruct (Z.leb_spec bound 1); [reflexivity|lia].
    + etransitivity; [|apply count_u64_none].
      apply count_u64_ext. intros x _. rewrite one_in_outcome_eq.
      destruct (Z.leb_spec bound 1); [reflexivity|lia].
Qed.

Lemma one_in_exact_odds_witness :
  (draws_answering Portable 32 100 true = 2 ^ 64 / 100 /\
   draws_answering Portable 32 100 false = (100 - 1) * (2 ^ 64 / 100) /\
   0 < 2 ^ 64 / 100) /\
  (draws_answering Portable 32 1 true = 2 ^ 64 /\
   draws_answering Portable 32 1 false = 0).
Proof.
  split.
  - apply (proj1 (one_in_exact_odds Portable 32 100 ltac:(lia))). lia.
  - apply (proj2 (one_in_exact_odds Portable 32 1 ltac:(lia))). lia.
Defined.

(** X11. For a compile-time bound that is a power of two (the presets
    2, 4, 8, 16, 128 and 256 among them), [one_in_t] always returns
    after exactly one draw, answering whether the low bits of that draw
    are all zero; no rejection loop is entered. *)
Theorem one_in_t_pow2 (N : Z) (fuel : nat) (p : platform)
        (g : xoshiro256ss.t) :
  pow2 N -> 1 < N < 2 ^ 32 ->
  one_in_t N fuel p g =
  Some (fst (xoshiro256ss.next_u64 g) mod N =? 0,
        snd (xoshiro256ss.next_u64 g)).
Proof.
  intros Hp HN. unfold one_in_t.
  destruct (Z.eqb_spec N 1); [lia|].
  rewrite wrap_small by lia.
  rewrite uniform_bounded_pow2 by (assumption || lia).
  reflexivity.
Qed.

Lemma one_in_t_pow2_witness :
  one_in_t 256 0 Int128 xoshiro256ss.default =
  Some (fst (xoshiro256ss.next_u64 xoshiro256ss.default) mod 256 =? 0,
        snd (xoshiro256ss.next_u64 xoshiro256ss.default)).
Proof.
  apply (one_in_t_pow2 256 0 Int128 xoshiro256ss.default);
    [exists 8; split; [lia|reflexivity]|lia].
Defined.

(** X12. The value sampled and the draws consumed do not depend on the
    unsigned type the template is instantiated with, as long as the
    bound fits it. *)
Theorem uniform_bounded_width_independent (fuel : nat) (p : platform)
        (bits1 bits2 : Z) (g : xoshiro256ss.t) (bound : Z) :
  0 < bits1 <= 64 -> 0 < bits2 <= 64 ->
  0 <= bound < 2 ^ bits1 -> bound < 2 ^ bits2 ->
  uniform_bounded fuel p bits1 g bound = uniform_bounded fuel p bits2 g bound.
Proof.
  intros H1 H2 Hb1 Hb2.
  destruct (Z.eq_dec bound 0) as [->|Hnz]; [reflexivity|].
  assert (Hb1' : 0 < bound < 2 ^ bits1) by lia.
  assert (Hb2' : 0 < bound < 2 ^ bits2) by lia.
  destruct (Z.land bound (wrap bits1 (bound - 1)) =? 0) eqn:Et.
  - apply (pow2_test bits1 bound Hb1') in Et.
    rewrite !uniform_bounded_pow2 by assumption. reflexivity.
  - assert (Hn : ~ pow2 bound).
    { intros Hp. apply (pow2_test bits1 bound Hb1') in Hp. congruence. }
    revert g. induction fuel as [|fuel IH]; intros g.
    + rewrite !uniform_bounded_no_fuel by assumption. reflexivity.
    + rewrite !uniform_bounded_step by exact Hnz.
      rewrite (outcome_width p bits1 bits2)
        by (assumption || apply xoshiro256ss_draw_range).
      rewrite IH. reflexivity.
Qed.

Lemma uniform_bounded_width_independent_witness :
  uniform_bounded 3 Int128 8 (xoshiro256ss.make 1337) 100
  = uniform_bounded 3 Int128 64 (xoshiro256ss.make 1337) 100.
Proof.
  apply (uniform_bounded_width_independent 3 Int128 8 64
           (xoshiro256ss.make 1337) 100); lia.
Defined.

(** X13. The [__int128] body and the [_umul128] body of the rejection
    loop return the same value from the same draws on every input; the
    portable body does not: it keeps the distribution, not the
    sequence. *)
Theorem wide_multiply_bodies_agree :
  (forall (R : Type) (H : Rng R) (fuel : nat) (bits : Z) (rng : R)
          (bound : Z),
      uniform_bounded fuel Int128 bits rng bound
      = uniform_bounded fuel MsvcX64 bits rng bound) /\
  uniform_bounded 1 Int128 32 (xoshiro256ss.make 1337) 100
  <> uniform_bounded 1 Portable 32 (xoshiro256ss.make 1337) 100.
Proof.
  split.
  - intros R H fuel bits rng bound. unfold uniform_bounded.
    destruct (bound =? 0); [reflexivity|].
    destruct (Z.land bound (wrap bits (bound - 1)) =? 0); [reflexivity|].
    generalize (wrap64 (0 - wrap64 bound) mod wrap64 bound) as t.
    intros t. revert rng.
    induction fuel as [|fuel IH]; intros rng; [reflexivity|].
    cbn [rejection_loop]. destruct (rng_next_u64 rng) as [x rng'].
    rewrite loop_body_int128_msvc, IH. reflexivity.
  - vm_compute. discriminate.
Qed.

(* ------------------------------------------------------------------ *)
(** ** The probability checks and the thread's generator *)

Lemma advance_add (j k : nat) (g : xoshiro256ss.t) :
  xoshiro256ss.advance k (xoshiro256ss.advance j g)
  = xoshiro256ss.advance (j + k) g.
Proof.
  revert g. induction j as [|j IH]; intros g; [reflexivity|].
  cbn [xoshiro256ss.advance Nat.add]. apply IH.
Qed.

(** The rejection loop only draws: it leaves the generator some draws
    further, at least one and at most one per iteration. *)
Lemma rejection_loop_advances (fuel : nat) (p : platform) (bits b t : Z)
      (g g' : xoshiro256ss.t) (v : Z) :
  rejection_loop fuel p bits b t g = Some (v, g') ->
  exists k : nat, (1 <= k <= fuel)%nat /\ g' = xoshiro256ss.advance k g.
Proof.
  revert g. induction fuel as [|fuel IH]; intros g; [discriminate|].
  cbn [rejection_loop rng_next_u64 xoshiro256ss_Rng].
  destruct (xoshiro256ss.next_u64 g) as [x g1] eqn:En.
  destruct (loop_body p bits b t x).
  - intros [= <- <-]. exists 1%nat. split; [lia|].
    cbn [xoshiro256ss.advance]. rewrite En. reflexivity.
  - intros E. apply IH in E. destruct E as (k & Hk & ->).
    exists (S k). split; [lia|].
    cbn [xoshiro256ss.advance]. rewrite En. reflexivity.
Qed.

Lemma uniform_bounded_advances (fuel : nat) (p : platform) (bits : Z)
      (g g' : xoshiro256ss.t) (bound v : Z) :
  uniform_bounded fuel p bits g bound = Some (v, g') ->
  exists k : nat,
    (k <= Nat.max 1 fuel)%nat /\ (bound <> 0 -> (1 <= k)%nat) /\
    g' = xoshiro256ss.advance k g.
Proof.
  unfold uniform_bounded.
  destruct (Z.eqb_spec bound 0) as [E0|E0].
  - intros [= <- <-]. exists 0%nat. repeat split; [lia|contradiction].
  - destruct (Z.land bound (wrap bits (bound - 1)) =? 0).
    + cbn [rng_next_u64 xoshiro256ss_Rng].
      destruct (xoshiro256ss.next_u64 g) as [x g1] eqn:En.
      intros [= <- <-]. exists 1%nat. repeat split; [lia|lia|].
      cbn [xoshiro256ss.advance]. rewrite En. reflexivity.
    + intros E. apply rejection_loop_advances in E.
      destruct E as (k & Hk & ->). exists k. repeat split; lia.
Qed.

Lemma one_in_advances (fuel : nat) (p : platform) (bits : Z)
      (g g' : xoshiro256ss.t) (bound : Z) (a : bool) :
  one_in fuel p bits g bound = Some (a, g') ->
  exists k : nat,
    (k <= Nat.max 1 fuel)%nat /\
    (bound <= 1 -> k = 0%nat /\ a = true) /\ (1 < bound -> (1 <= k)%nat) /\
    g' = xoshiro256ss.advance k g.
Proof.
  unfold one_in. destruct (Z.leb_spec bound 1) as [Hb|Hb].
  - intros [= <- <-]. exists 0%nat. repeat split; lia.
  - destruct (uniform_bounded fuel p bits g bound) as [[v g1]|] eqn:E;
      [|discriminate].
    intros [= <- <-]. apply uniform_bounded_advances in E.
    destruct E as (k & Hk & Hk1 & ->). exists k.
    repeat split; lia.
Qed.

Lemma one_in_t_as_one_in (N : Z) (fuel : nat) (p : platform)
      (g : xoshiro256ss.t) :
  1 <= N < 2 ^ 32 -> one_in_t N fuel p g = one_in fuel p 32 g N.
Proof.
  intros HN. unfold one_in_t, one_in. rewrite wrap_small by lia.
  destruct (Z.eqb_spec N 1), (Z.leb_spec N 1); try lia; reflexivity.
Qed.

(** X14. A probability check only draws from the generator: when
    [one_in] returns, the generator is the one it was given advanced by
    some number of draws -- none if [bound <= 1] (and the answer is then
    true), at least one otherwise, and never more than the rejection
    loop made iterations.  So a generator that is seeded (its state not
    all zero) is still seeded after any check. *)
Theorem one_in_keeps_stream (fuel : nat) (p : platform) (bits : Z)
        (g g' : xoshiro256ss.t) (bound : Z) (a : bool) :
  one_in fuel p bits g bound = Some (a, g') ->
  (exists k : nat,
      (k <= Nat.max 1 fuel)%nat /\
      (bound <= 1 -> k = 0%nat /\ a = true) /\ (1 < bound -> (1 <= k)%nat) /\
      g' = xoshiro256ss.advance k g) /\
  (xoshiro256ss.wf g -> xoshiro256ss.all_zero g = false ->
   xoshiro256ss.wf g' /\ xoshiro256ss.all_zero g' = false).
Proof.
  intros E. pose proof (one_in_advances _ _ _ _ _ _ _ E) as Hk.
  split; [exact Hk|].
  destruct Hk as (k & _ & _ & _ & ->).
  intros Hwf Hnz. apply advance_invariant; assumption.
Qed.

Lemma one_in_keeps_stream_witness :
  xoshiro256ss.wf (xoshiro256ss.advance 2 (xoshiro256ss.make 1)) /\
  xoshiro256ss.all_zero (xoshiro256ss.advance 2 (xoshiro256ss.make 1))
  = false.
Proof.
  apply (proj2 (one_in_keeps_stream 2 Int128 64 (xoshiro256ss.make 1)
                  (xoshiro256ss.advance 2 (xoshiro256ss.make 1))
                  (2 ^ 63 + 1) false ltac:(vm_compute; reflexivity))).
  - apply seed_with_wf.
  - vm_compute. reflexivity.
Defined.

(** The loop of the example counts at most one hit per trial and draws
    at least once per trial. *)
Lemma main_loop_counts (trials fuel : nat) (p : platform)
      (tl tl' : xoshiro256ss.t) (hits h : Z) :
  0 <= hits -> hits + Z.of_nat trials < 2 ^ 64 ->
  main_loop trials fuel p tl hits = Some (h, tl') ->
  hits <= h <= hits + Z.of_nat trials /\
  exists k : nat, (trials <= k)%nat /\ tl' = xoshiro256ss.advance k tl.
Proof.
  revert tl hits. induction trials as [|n IH]; intros tl hits H0 Hlt.
  - cbn [main_loop]. intros [= <- <-]. split; [lia|].
    exists 0%nat. split; [lia|reflexivity].
  - cbn [main_loop]. unfold p100, one_in_t_thread.
    rewrite one_in_t_as_one_in by lia.
    destruct (one_in fuel p 32 tl 100) as [[hit tl1]|] eqn:E; [|discriminate].
    apply one_in_advances in E. destruct E as (j & _ & _ & Hj & ->).
    specialize (Hj ltac:(lia)).
    intros E. apply IH in E.
    + destruct E as (Hh & k & Hk & ->).
      split.
      * destruct hit; [rewrite wrap64_small in Hh by lia|]; lia.
      * exists (j + k)%nat. split; [lia|apply advance_add].
    + destruct hit; [rewrite wrap64_small by lia|]; lia.
    + destruct hit; [rewrite wrap64_small by lia|]; lia.
Qed.

(** X15. The example program is reproducible: after [seed_thread(1337)]
    what it prints does not depend on the state the thread's generator
    had before, that is on the entropy it was created from.  When it
    returns, the count it prints is at most the number of trials, and
    the thread's generator is the one seeded with 1337 advanced by more
    draws than there were trials, still not all zero. *)
Theorem main_reproducible (trials fuel : nat) (p : platform)
        (tl1 tl2 : xoshiro256ss.t) :
  Z.of_nat trials < 2 ^ 64 ->
  main fuel p tl1 = main fuel p tl2 /\
  main_with trials fuel p tl1 = main_with trials fuel p tl2 /\
  (forall hits lucky tl',
      main_with trials fuel p tl1 = Some (hits, lucky, tl') ->
      0 <= hits <= Z.of_nat trials /\
      (exists k : nat, (trials < k)%nat /\
                       tl' = xoshiro256ss.advance k (xoshiro256ss.make 1337)) /\
      xoshiro256ss.all_zero tl' = false).
Proof.
  intros Ht.
  assert (Hs : forall tl, seed_thread tl 1337 = xoshiro256ss.make 1337).
  { intros tl. unfold seed_thread, xoshiro256ss.make.
    rewrite !seed_with_mixed. reflexivity. }
  unfold main, main_with. cbv zeta. rewrite !Hs.
  split; [reflexivity|]. split; [reflexivity|].
  intros hits lucky tl'.
  destruct (main_loop trials fuel p (xoshiro256ss.make 1337) 0)
    as [[h tl1']|] eqn:El; [|discriminate].
  apply main_loop_counts in El; [|lia|lia].
  destruct El as (Hh & k & Hk & ->).
  unfold one_in_thread.
  destruct (one_in fuel p 32 _ 37) as [[l tl2']|] eqn:Eo; [|discriminate].
  intros [= <- <- <-].
  apply one_in_advances in Eo. destruct Eo as (j & _ & _ & Hj & ->).
  specialize (Hj ltac:(lia)). rewrite advance_add.
  split; [lia|]. split.
  - exists (k + j)%nat. split; [lia|reflexivity].
  - apply advance_invariant; [apply seed_with_wf|apply seed_with_nonzero].
Qed.

Lemma main_reproducible_witness :
  main_with 3 1 Int128 xoshiro256ss.default
  = main_with 3 1 Int128 xoshiro256ss.fallback /\
  0 <= 0 <= Z.of_nat 3.
Proof.
  destruct (main_reproducible 3 1 Int128 xoshiro256ss.default
              xoshiro256ss.fallback ltac:(cbn; lia)) as (_ & Heq & Hres).
  split; [exact Heq|].
  apply (Hres 0 false
           (xoshiro256ss.advance 4 (xoshiro256ss.make 1337))).
  vm_compute. reflexivity.
Defined.
